(** * The BoltDB key-value engine and its range index

    A shallow embedding of [db.BoltDB] (package [db], the file that
    implements [KVStore] on top of bbolt): the store contract
    ([Put], [Get], [Delete], [Filter], [Range], [WriteBatch]) and the
    range-index operations ([Insert], [SeekNext], [SeekPrev], [Remove],
    [Purge]).

    Data.  Go byte slices and Go strings are both sequences of 8-bit
    characters and are modelled by [string]; a slice that may be nil is
    an [option string].  [bytes.Compare] is the lexicographic order on
    character codes, that is [String.compare].  A namespace of the store
    (a bbolt bucket) is a finite map from keys to values, the store a
    finite map from bucket names to buckets.  A cursor iterates the
    entries of a bucket in ascending key order.

    Effects.  A transaction body is a function of the store that fails
    or yields a result and the changed store.  The store itself is
    total: what bbolt may refuse or fail to do in an attempt (an
    argument it rejects, an I/O error, a full device) is not computed
    from the arguments but supplied from outside, per attempt, as the
    error the attempt ends with.  A mutating operation returns what the
    caller sees, or the fact that the process was terminated, together
    with the engine afterwards and the number of attempts it made.

    Left out: the lifecycle ([Start], [Stop]; the readiness flag is a
    field of the engine), the locks, the metrics, and the fill-percent
    hint of a batch, none of which changes what is stored or returned. *)

From Stdlib Require Import ZArith NArith List Ascii String Lia.
From stdpp Require Import base option list sorting gmap strings.

Local Open Scope string_scope.
Local Open Scope list_scope.

(** ** Errors *)

(** Modelled from the spec: the sentinel values [ErrNotExist],
    [ErrBucketNotExist] and [ErrIO] are declared in a file of package
    [db] that is not among the sources at hand; the specification lists
    them as distinct error kinds (NotExist, BucketNotExist, IO).
    [ErrDBNotStarted] is declared next to [BoltDB].  [ENOSPC] is
    [syscall.ENOSPC], [ErrBucketNotFound] is bbolt's error of that name,
    [ErrStore] stands for any other failure of the underlying store.
    [Wrapped] is what [errors.Wrap] and [errors.Wrapf] build; the message
    text is not modelled, no operation branches on it. *)
Inductive error : Type :=
| ErrDBNotStarted
| ErrNotExist
| ErrBucketNotExist
| ErrIO
| ENOSPC
| ErrBucketNotFound
| ErrStore (code : nat)
| Wrapped (cause : error).

#[global] Instance error_eq_dec : EqDecision error.
Proof. solve_decision. Defined.

(** [errors.Cause]: the innermost error of a chain of wrappings. *)
Fixpoint Cause (e : error) : error :=
  match e with
  | Wrapped c => Cause c
  | _ => e
  end.

(** [errors.Is]: does [target] occur in the chain of [e]? *)
Fixpoint Is (e target : error) : bool :=
  if decide (e = target) then true
  else match e with
       | Wrapped c => Is c target
       | _ => false
       end.

(** A call either returns to its caller or ends the process:
    [log.L().Fatal] writes the entry and exits. *)
Inductive outcome (A : Type) : Type :=
| Returned (a : A)
| Terminated.
Arguments Returned {A} a.
Arguments Terminated {A}.

(** A call that allocates either completes or is unwound by a run-time
    panic, which is no error value: nothing is returned. *)
Inductive completion (A : Type) : Type :=
| Completed (a : A)
| Panicked.
Arguments Completed {A} a.
Arguments Panicked {A}.

(** ** The ordered store *)

Abbreviation Bucket := (gmap string string).
Abbreviation Store := (gmap string (gmap string string)).

Abbreviation entry := (string * string)%type.

Definition entry_le (x y : entry) : Prop := String.le x.1 y.1.

#[global] Instance entry_le_dec : RelDecision entry_le.
Proof. intros x y. unfold entry_le. apply _. Defined.

(** The entries of a bucket in ascending key order, as a cursor meets
    them. *)
Definition entries (b : Bucket) : list entry :=
  merge_sort entry_le (map_to_list b).

(** A bbolt cursor.  It reads the pages the transaction started from:
    [before] holds the entries in front of the position, nearest first,
    [after] the entry at the position and those behind it.  A position
    past the last entry has [after = []].  [Put] and [Delete] on the
    bucket act on the transaction's copy and do not move or change a
    cursor that is already positioned. *)
Record Cursor : Type := mkCursor {
  before : list entry;
  after : list entry
}.

Definition bucket_Cursor (b : Bucket) : Cursor := mkCursor [] (entries b).

Fixpoint seek_from (key : string) (bef aft : list entry) : Cursor :=
  match aft with
  | [] => mkCursor bef []
  | e :: rest =>
      if String.ltb e.1 key then seek_from key (e :: bef) rest
      else mkCursor bef aft
  end.

(** [Cursor.Seek]: move to the first entry whose key is at or after
    [key]; none is Go's nil key. *)
Definition Seek (key : string) (c : Cursor) : Cursor * option entry :=
  let c' := seek_from key [] (rev_append (before c) (after c)) in
  (c', head (after c')).

(** [Cursor.First]. *)
Definition First (c : Cursor) : Cursor * option entry :=
  let c' := mkCursor [] (rev_append (before c) (after c)) in
  (c', head (after c')).

(** [Cursor.Next]: at the last entry, or past it, the cursor stays and
    nil is returned. *)
Definition Next (c : Cursor) : Cursor * option entry :=
  match after c with
  | e :: rest =>
      match rest with
      | e' :: _ => (mkCursor (e :: before c) rest, Some e')
      | [] => (c, None)
      end
  | [] => (c, None)
  end.

(** [Cursor.Prev]: at the first entry the cursor stays and nil is
    returned. *)
Definition Prev (c : Cursor) : Cursor * option entry :=
  match before c with
  | e :: bef => (mkCursor bef (e :: after c), Some e)
  | [] => (c, None)
  end.

(** ** Transactions *)

(** The body of a transaction: it reads and changes the transaction's
    copy of the store and either fails with an error or yields a result.
    A failed body leaves nothing behind, so no store comes with the
    error. *)
Definition Tx (A : Type) : Type := Store -> error + (A * Store).

Definition tx_ret {A} (a : A) : Tx A := fun s => inr (a, s).

Definition tx_fail {A} (e : error) : Tx A := fun _ => inl e.

Definition tx_bind {A B} (m : Tx A) (k : A -> Tx B) : Tx B :=
  fun s => match m s with
           | inl e => inl e
           | inr (a, s') => k a s'
           end.

Notation "x <- m ;; k" := (tx_bind m (fun x => k))
  (at level 100, m at next level, right associativity, only parsing).
Notation "m ;;; k" := (tx_bind m (fun _ => k))
  (at level 100, right associativity, only parsing).

(** [tx.Bucket(name)]: the bucket, or nil. *)
Definition tx_Bucket (name : string) : Tx (option Bucket) :=
  fun s => inr (s !! name, s).

(** [tx.CreateBucketIfNotExists(name)]. *)
Definition tx_CreateBucketIfNotExists (name : string) : Tx unit :=
  fun s => inr (tt, match s !! name with
                    | Some _ => s
                    | None => <[name := ∅]> s
                    end).

(** [tx.DeleteBucket(name)]; its error is a value the caller inspects. *)
Definition tx_DeleteBucket (name : string) : Tx (option error) :=
  fun s => match s !! name with
           | Some _ => inr (None, delete name s)
           | None => inr (Some ErrBucketNotFound, s)
           end.

(** [bucket.Put(key, value)] on the bucket called [name]. *)
Definition bucket_Put (name key value : string) : Tx unit :=
  fun s => inr (tt, alter (fun b => <[key := value]> b) name s).

(** [bucket.Delete(key)] on the bucket called [name]. *)
Definition bucket_Delete (name key : string) : Tx unit :=
  fun s => inr (tt, alter (fun b => delete key b) name s).

(** [db.Update(fn)]: run [fn] in a read-write transaction and commit.
    When [fn] fails, or the store fails in this attempt ([fault]), the
    transaction is rolled back, nothing of it stays, and the error is
    returned. *)
Definition Update (fn : Tx unit) (fault : option error) (s : Store)
  : option error * Store :=
  match fn s with
  | inl e => (Some e, s)
  | inr (_, s') =>
      match fault with
      | Some e => (Some e, s)
      | None => (None, s')
      end
  end.

(** [db.View(fn)]: run [fn] in a read-only transaction. *)
Definition View {A} (fn : Tx A) (s : Store) : error + A :=
  match fn s with
  | inl e => inl e
  | inr (a, _) => inr a
  end.

(** ** The engine *)

(** [Config.NumRetries] is a [uint8]. *)
Record Config : Type := mkConfig { NumRetries : nat }.

(** [ready] is the embedded [lifecycle.Readiness]; [db] is the content
    of the open bbolt file. *)
Record BoltDB : Type := mkBoltDB {
  ready : bool;
  db : Store;
  config : Config
}.

Definition IsReady (b : BoltDB) : bool := ready b.

Definition with_db (b : BoltDB) (s : Store) : BoltDB :=
  mkBoltDB (ready b) s (config b).

(** ** Byte helpers *)

(** [bytes.Compare]: -1, 0 or 1. *)
Definition bytes_Compare (a b : string) : Z :=
  match String.compare a b with
  | Lt => (-1)%Z
  | Eq => 0%Z
  | Gt => 1%Z
  end.

(** [bytes.Equal] on slices that may be nil: a nil slice equals an empty
    one. *)
Definition bytes_Equal (a b : option string) : bool :=
  bool_decide (default "" a = default "" b).

(** Unsigned 64-bit arithmetic wraps around. *)
Definition wrap64 (z : Z) : Z := (z mod 2 ^ 64)%Z.

Definition byte_of (z : Z) : ascii := ascii_of_N (Z.to_N (Z.land z 255)).

(** Modelled from the spec: [byteutil.Uint64ToBytesBigEndian] is not
    among the sources at hand; boundary keys are the 8-byte big-endian
    encoding of the unsigned 64-bit value. *)
Definition Uint64ToBytesBigEndian (v : Z) : string :=
  String (byte_of (Z.shiftr v 56))
 (String (byte_of (Z.shiftr v 48))
 (String (byte_of (Z.shiftr v 40))
 (String (byte_of (Z.shiftr v 32))
 (String (byte_of (Z.shiftr v 24))
 (String (byte_of (Z.shiftr v 16))
 (String (byte_of (Z.shiftr v 8))
 (String (byte_of v) ""))))))).

(** ** The retry loop of the mutating operations *)

(** [for c := uint8(0); c < NumRetries; c++ { if err = db.Update(fn);
    err == nil { break } }], written out in [Put], [Delete],
    [WriteBatch], [Insert], [Remove] and [Purge].  [n] iterations are
    left, [c] attempts were made, [err] is the error variable, and
    [env c] tells whether the store fails in attempt [c].  The
    result carries the number of attempts made. *)
Fixpoint retry (fn : Tx unit) (env : nat -> option error) (n c : nat)
    (s : Store) (err : option error) : option error * Store * nat :=
  match n with
  | 0 => (err, s, c)
  | S n' =>
      match Update fn (env c) s with
      | (None, s') => (None, s', S c)
      | (Some e, s') => retry fn env n' (S c) s' (Some e)
      end
  end.

(** What follows the loop: [if err != nil { if errors.Is(err,
    syscall.ENOSPC) { log.L().Fatal(...) }; err = errors.Wrap(ErrIO,
    err.Error()) }; return err]. *)
Definition escalate (err : option error) : outcome (option error) :=
  match err with
  | None => Returned None
  | Some e =>
      if Is e ENOSPC then Terminated
      else Returned (Some (Wrapped ErrIO))
  end.

(** The loop and what follows it, for an engine that is ready.  The
    result is what the caller sees, the engine afterwards, and the
    number of transaction attempts. *)
Definition with_retries (b : BoltDB) (env : nat -> option error) (fn : Tx unit)
  : outcome (option error) * BoltDB * nat :=
  let '(err, s, n) := retry fn env (NumRetries (config b)) 0 (db b) None in
  (escalate err, with_db b s, n).

(** ** Store contract *)

Definition Put_tx (namespace key value : string) : Tx unit :=
  tx_CreateBucketIfNotExists namespace ;;;
  bucket_Put namespace key value.

(** [BoltDB.Put] *)
Definition Put (b : BoltDB) (env : nat -> option error)
    (namespace key value : string) : outcome (option error) * BoltDB * nat :=
  if negb (IsReady b) then (Returned (Some ErrDBNotStarted), b, 0)
  else with_retries b env (Put_tx namespace key value).

Definition Get_tx (namespace key : string) : Tx string :=
  bucket <- tx_Bucket namespace ;;
  match bucket with
  | None => tx_fail (Wrapped ErrNotExist)
  | Some bkt =>
      match bkt !! key with
      | None => tx_fail (Wrapped ErrNotExist)
      | Some v => tx_ret v
      end
  end.

(** [BoltDB.Get]: the pair of Go results, nil being [None]. *)
Definition Get (b : BoltDB) (namespace key : string)
  : option string * option error :=
  if negb (IsReady b) then (None, Some ErrDBNotStarted)
  else
    match View (Get_tx namespace key) (db b) with
    | inr value => (Some value, None)
    | inl err =>
        if decide (Cause err = ErrNotExist) then (None, Some err)
        else (None, Some (Wrapped ErrIO))
    end.

(** The loop of [Filter]: [for ; k != nil; k, v = c.Next()].  [fuel]
    bounds the number of iterations; the entries behind the cursor are
    that many at most. *)
Fixpoint Filter_loop (fuel : nat) (cond : string -> string -> bool)
    (checkMax : bool) (maxKey : string) (c : Cursor) (kv : option entry)
    (fk fv : list string) : list string * list string :=
  match kv, fuel with
  | Some (k, v), S fuel' =>
      if checkMax && (bytes_Compare k maxKey =? 1)%Z then (fk, fv)
      else
        let '(fk', fv') :=
          if cond k v then (fk ++ [k], fv ++ [v]) else (fk, fv) in
        let '(c', kv') := Next c in
        Filter_loop fuel' cond checkMax maxKey c' kv' fk' fv'
  | _, _ => (fk, fv)
  end.

Definition Filter_tx (namespace : string) (cond : string -> string -> bool)
    (minKey maxKey : string) : Tx (list string * list string) :=
  bucket <- tx_Bucket namespace ;;
  match bucket with
  | None => tx_fail (Wrapped ErrBucketNotExist)
  | Some bkt =>
      let c := bucket_Cursor bkt in
      let '(c, kv) :=
        if (0 <? String.length minKey)%nat then Seek minKey c else First c in
      match kv with
      | None => tx_ret ([], [])
      | Some _ =>
          let checkMax := (0 <? String.length maxKey)%nat in
          tx_ret (Filter_loop (length (after c)) cond checkMax maxKey c kv [] [])
      end
  end.

(** [BoltDB.Filter]: keys, values and error as Go returns them. *)
Definition Filter (b : BoltDB) (namespace : string)
    (cond : string -> string -> bool) (minKey maxKey : string)
  : option (list string) * option (list string) * option error :=
  if negb (IsReady b) then (None, None, Some ErrDBNotStarted)
  else
    match View (Filter_tx namespace cond minKey maxKey) (db b) with
    | inl err => (None, None, Some err)
    | inr (fk, fv) =>
        if (length fk =? 0)%nat then (None, None, Some (Wrapped ErrNotExist))
        else (Some fk, Some fv, None)
    end.

(** The loop of [Range]: [for i := uint64(0); i < count; i++], with [n]
    iterations left. *)
Fixpoint Range_loop (n i : nat) (cur : Cursor) (kv : option entry)
    (value : list string) : error + list string :=
  match n with
  | 0 => inr value
  | S n' =>
      match kv with
      | None => inl (Wrapped ErrNotExist)
      | Some (_, v) =>
          let value' := <[i := v]> value in
          let '(cur', kv') := Next cur in
          Range_loop n' (S i) cur' kv' value'
      end
  end.

Definition Range_tx (namespace key : string) (count : nat)
    (value : list string) : Tx (list string) :=
  bucket <- tx_Bucket namespace ;;
  match bucket with
  | None => tx_fail (Wrapped ErrNotExist)
  | Some bkt =>
      let cur := bucket_Cursor bkt in
      let '(cur, kv) := Seek key cur in
      match kv with
      | None => tx_fail (Wrapped ErrNotExist)
      | Some _ =>
          match Range_loop count 0 cur kv value with
          | inl e => tx_fail e
          | inr value' => tx_ret value'
          end
      end
  end.

(** [make([][]byte, count)] with [count] a [uint64]: a slice of
    [count] nil (empty) values.  The run time panics when the length
    does not fit an [int], that is from 2^63 on, and when the slice
    needs more memory than it can allocate; [maxLen] is the greatest
    length it grants. *)
Definition make (maxLen count : N) : option (list string) :=
  if ((count <? 2 ^ 63) && (count <=? maxLen))%N
  then Some (replicate (N.to_nat count) "")
  else None.

(** [BoltDB.Range]; [count] is a [uint64].  The slice is made after the
    readiness guard and before the transaction. *)
Definition Range (maxLen : N) (b : BoltDB) (namespace key : string) (count : N)
  : completion (option (list string) * option error) :=
  if negb (IsReady b) then Completed (None, Some ErrDBNotStarted)
  else
    match make maxLen count with
    | None => Panicked
    | Some value =>
        match View (Range_tx namespace key (N.to_nat count) value) (db b) with
        | inr value' => Completed (Some value', None)
        | inl err =>
            if decide (Cause err = ErrNotExist) then Completed (None, Some err)
            else Completed (None, Some (Wrapped ErrIO))
        end
    end.

(** The two transaction bodies of [Delete]; a nil key ([None]) deletes
    the whole bucket. *)
Definition Delete_tx (namespace : string) (key : option string) : Tx unit :=
  match key with
  | None =>
      err <- tx_DeleteBucket namespace ;;
      match err with
      | Some e => if decide (e = ErrBucketNotFound) then tx_ret tt else tx_fail e
      | None => tx_ret tt
      end
  | Some k =>
      bucket <- tx_Bucket namespace ;;
      match bucket with
      | None => tx_ret tt
      | Some _ => bucket_Delete namespace k
      end
  end.

(** [BoltDB.Delete] *)
Definition Delete (b : BoltDB) (env : nat -> option error)
    (namespace : string) (key : option string)
  : outcome (option error) * BoltDB * nat :=
  if negb (IsReady b) then (Returned (Some ErrDBNotStarted), b, 0)
  else with_retries b env (Delete_tx namespace key).

(** ** Batches *)

Module batch.

(** Modelled from the spec: package [db/batch] is not among the
    sources at hand.  A write operation is tagged [Put] or [Delete];
    [Other] stands for any further tag the type could carry.  A batch
    is the sequence of its operations in insertion order, with a size
    query and a positional read that fails out of range; [ErrStore 0]
    stands for the error of such a read. *)
Inductive WriteType : Type :=
| Put
| Delete
| Other (tag : Z).

#[global] Instance WriteType_eq_dec : EqDecision WriteType.
Proof. solve_decision. Defined.

Record WriteInfo : Type := mkWriteInfo {
  writeType : WriteType;
  namespace : string;
  key : string;
  value : string
}.

Abbreviation KVStoreBatch := (list WriteInfo).

Definition Size (b : KVStoreBatch) : nat := length b.

Definition Entry (b : KVStoreBatch) (index : nat) : error + WriteInfo :=
  match b !! index with
  | Some w => inr w
  | None => inl (ErrStore 0)
  end.

End batch.

(** The first loop of [WriteBatch]: [for i := kvsb.Size() - 1; i >= 0;
    i--], at [i = n - 1].  [entryKeySet] is the Go map used as a set of
    [doubleKey{ns, key}]. *)
Fixpoint WriteBatch_scan (kvsb : batch.KVStoreBatch) (n : nat)
    (entryKeySet : gset (string * string))
    (uniqEntries : list batch.WriteInfo)
  : error + (gset (string * string) * list batch.WriteInfo) :=
  match n with
  | 0 => inr (entryKeySet, uniqEntries)
  | S i =>
      match batch.Entry kvsb i with
      | inl e => inl e
      | inr write =>
          if bool_decide (batch.writeType write <> batch.Put)
             && bool_decide (batch.writeType write <> batch.Delete)
          then WriteBatch_scan kvsb i entryKeySet uniqEntries
          else
            let k := (batch.namespace write, batch.key write) in
            if decide (k ∈ entryKeySet)
            then WriteBatch_scan kvsb i entryKeySet uniqEntries
            else WriteBatch_scan kvsb i ({[k]} ∪ entryKeySet)
                                 (uniqEntries ++ [write])
      end
  end.

(** One round of the second loop: the [switch] on the write type.  The
    fill-percent hint of a [Put] tunes page layout only and is left
    out. *)
Definition WriteBatch_step (write : batch.WriteInfo) : Tx unit :=
  let ns := batch.namespace write in
  match batch.writeType write with
  | batch.Put =>
      tx_CreateBucketIfNotExists ns ;;;
      bucket_Put ns (batch.key write) (batch.value write)
  | batch.Delete =>
      bucket <- tx_Bucket ns ;;
      match bucket with
      | None => tx_ret tt
      | Some _ => bucket_Delete ns (batch.key write)
      end
  | batch.Other _ => tx_ret tt
  end.

(** The second loop, inside the transaction: [for i :=
    len(uniqEntries) - 1; i >= 0; i--], at [i = n - 1]. *)
Fixpoint WriteBatch_tx (uniqEntries : list batch.WriteInfo) (n : nat) : Tx unit :=
  match n with
  | 0 => tx_ret tt
  | S i =>
      match uniqEntries !! i with
      | Some write => WriteBatch_step write ;;; WriteBatch_tx uniqEntries i
      | None => tx_ret tt
      end
  end.

(** [BoltDB.WriteBatch] *)
Definition WriteBatch (b : BoltDB) (env : nat -> option error)
    (kvsb : batch.KVStoreBatch) : outcome (option error) * BoltDB * nat :=
  if negb (IsReady b) then (Returned (Some ErrDBNotStarted), b, 0)
  else
    match WriteBatch_scan kvsb (batch.Size kvsb) ∅ [] with
    | inl e => (Returned (Some e), b, 0)
    | inr (_, uniqEntries) =>
        with_retries b env (WriteBatch_tx uniqEntries (length uniqEntries))
    end.

(** [BoltDB.BucketExists] *)
Definition BucketExists (b : BoltDB) (namespace : string) : bool :=
  if negb (IsReady b) then false
  else
    match View (bucket <- tx_Bucket namespace ;; tx_ret (bool_decide (is_Some bucket))) (db b) with
    | inr found => found
    | inl _ => false
    end.

(** ** Range index *)

Section RangeIndex.

(** The marker value [NotExist] of the range index is declared in a
    file that is not among the sources at hand. *)
Variable NotExist : string.

Definition Insert_tx (name : string) (key : Z) (value : string) : Tx unit :=
  bucket <- tx_Bucket name ;;
  match bucket with
  | None => tx_fail (Wrapped ErrBucketNotExist)
  | Some bkt =>
      let cur := bucket_Cursor bkt in
      let ak := Uint64ToBytesBigEndian (wrap64 (key - 1)) in
      let '(cur, kv) := Seek ak cur in
      let k := fst <$> kv in
      let v := snd <$> kv in
      k <- (if negb (bytes_Equal k (Some ak))
            then bucket_Put name ak (default "" v) ;;; tx_ret k
            else let '(_, kv') := Next cur in tx_ret (fst <$> kv')) ;;
      match k with
      | Some k => bucket_Put name k value
      | None => tx_ret tt
      end
  end.

(** [BoltDB.Insert]; [key] is a [uint64]. *)
Definition Insert (b : BoltDB) (env : nat -> option error)
    (name : string) (key : Z) (value : string)
  : outcome (option error) * BoltDB * nat :=
  if negb (IsReady b) then (Returned (Some ErrDBNotStarted), b, 0)
  else with_retries b env (Insert_tx name key value).

Definition SeekNext_tx (name : string) (key : Z) : Tx string :=
  bucket <- tx_Bucket name ;;
  match bucket with
  | None => tx_fail (Wrapped ErrBucketNotExist)
  | Some bkt =>
      let cur := bucket_Cursor bkt in
      let '(_, kv) := Seek (Uint64ToBytesBigEndian key) cur in
      let v := snd <$> kv in
      tx_ret (default "" v)
  end.

(** [BoltDB.SeekNext]: the value is a fresh slice of [len(v)] bytes,
    never nil. *)
Definition SeekNext (b : BoltDB) (name : string) (key : Z)
  : option string * option error :=
  if negb (IsReady b) then (None, Some ErrDBNotStarted)
  else
    match View (SeekNext_tx name key) (db b) with
    | inl err => (None, Some err)
    | inr value => (Some value, None)
    end.

Definition SeekPrev_tx (name : string) (key : Z) : Tx string :=
  bucket <- tx_Bucket name ;;
  match bucket with
  | None => tx_fail (Wrapped ErrBucketNotExist)
  | Some bkt =>
      let cur := bucket_Cursor bkt in
      let '(cur, _) := Seek (Uint64ToBytesBigEndian key) cur in
      let '(_, kv) := Prev cur in
      let v := snd <$> kv in
      tx_ret (default "" v)
  end.

(** [BoltDB.SeekPrev] *)
Definition SeekPrev (b : BoltDB) (name : string) (key : Z)
  : option string * option error :=
  if negb (IsReady b) then (None, Some ErrDBNotStarted)
  else
    match View (SeekPrev_tx name key) (db b) with
    | inl err => (None, Some err)
    | inr value => (Some value, None)
    end.

Definition Remove_tx (name : string) (key : Z) : Tx unit :=
  bucket <- tx_Bucket name ;;
  match bucket with
  | None => tx_fail (Wrapped ErrBucketNotExist)
  | Some bkt =>
      let cur := bucket_Cursor bkt in
      let ak := Uint64ToBytesBigEndian (wrap64 (key - 1)) in
      let '(cur, kv) := Seek ak cur in
      let k := fst <$> kv in
      let v := snd <$> kv in
      if negb (bytes_Equal k (Some ak)) then tx_ret tt
      else
        bucket_Delete name ak ;;;
        let '(_, kv') := Next cur in
        match fst <$> kv' with
        | Some k => bucket_Put name k (default "" v)
        | None => tx_ret tt
        end
  end.

(** [BoltDB.Remove] *)
Definition Remove (b : BoltDB) (env : nat -> option error)
    (name : string) (key : Z) : outcome (option error) * BoltDB * nat :=
  if negb (IsReady b) then (Returned (Some ErrDBNotStarted), b, 0)
  else with_retries b env (Remove_tx name key).

(** The loop of [Purge]: [for k, _ := cur.Prev(); k != nil; k, _ =
    cur.Prev()].  [fuel] bounds the number of iterations; the entries
    in front of the cursor are that many at most. *)
Fixpoint Purge_loop (fuel : nat) (name : string) (cur : Cursor) : Tx unit :=
  match fuel with
  | 0 => tx_ret tt
  | S fuel' =>
      let '(cur', kv) := Prev cur in
      match fst <$> kv with
      | None => tx_ret tt
      | Some k => bucket_Delete name k ;;; Purge_loop fuel' name cur'
      end
  end.

Definition Purge_tx (name : string) (key : Z) : Tx unit :=
  bucket <- tx_Bucket name ;;
  match bucket with
  | None => tx_fail (Wrapped ErrBucketNotExist)
  | Some bkt =>
      let cur := bucket_Cursor bkt in
      let '(cur, kv) := Seek (Uint64ToBytesBigEndian key) cur in
      let nk := fst <$> kv in
      Purge_loop (length (before cur)) name cur ;;;
      match nk with
      | Some nk => bucket_Put name nk NotExist
      | None => tx_ret tt
      end
  end.

(** [BoltDB.Purge] *)
Definition Purge (b : BoltDB) (env : nat -> option error)
    (name : string) (key : Z) : outcome (option error) * BoltDB * nat :=
  if negb (IsReady b) then (Returned (Some ErrDBNotStarted), b, 0)
  else with_retries b env (Purge_tx name key).

End RangeIndex.

(** ** Prefix listings *)

(** [bytes.HasPrefix(s, prefix)] *)
Definition bytes_HasPrefix (s prefix : string) : bool := String.prefix prefix s.

(** The names of the buckets of the store in ascending order, as
    [tx.ForEach] meets them. *)
Definition bucket_names (s : Store) : list string :=
  merge_sort String.le (map_to_list s).*1.

(** The callback of [tx.ForEach] in [GetBucketByPrefix], run over the
    bucket names in order. *)
Fixpoint GetBucketByPrefix_each (namespace : string) (names : list string)
    (allKey : list string) : list string :=
  match names with
  | [] => allKey
  | name :: rest =>
      let allKey' :=
        if bytes_HasPrefix name namespace
           && negb (bytes_Equal (Some name) (Some namespace))
        then allKey ++ [name]
        else allKey in
      GetBucketByPrefix_each namespace rest allKey'
  end.

Definition GetBucketByPrefix_tx (namespace : string) : Tx (list string) :=
  fun s => inr (GetBucketByPrefix_each namespace (bucket_names s) [], s).

(** [BoltDB.GetBucketByPrefix]: [allKey] is made before the
    transaction and returned together with the error. *)
Definition GetBucketByPrefix (b : BoltDB) (namespace : string)
  : option (list string) * option error :=
  if negb (IsReady b) then (None, Some ErrDBNotStarted)
  else
    match View (GetBucketByPrefix_tx namespace) (db b) with
    | inr allKey => (Some allKey, None)
    | inl err => (Some [], Some err)
    end.

(** The loop of [GetKeyByPrefix]: [for k, _ := c.Seek(prefix);
    bytes.HasPrefix(k, prefix); k, _ = c.Next()].  The condition is
    tested on a nil key too, which has every empty prefix.  [fuel]
    bounds the number of tests of the condition; [None] says that the
    loop is still running when the bound is reached. *)
Fixpoint GetKeyByPrefix_loop (fuel : nat) (prefix : string) (c : Cursor)
    (kv : option entry) (allKey : list string) : option (list string) :=
  match fuel with
  | 0 => None
  | S fuel' =>
      let k := default "" (fst <$> kv) in
      if bytes_HasPrefix k prefix
      then
        let '(c', kv') := Next c in
        GetKeyByPrefix_loop fuel' prefix c' kv' (allKey ++ [k])
      else Some allKey
  end.

(** [BoltDB.GetKeyByPrefix] with a bound on the rounds of its loop;
    [None] says that the call has not returned within the bound.  The
    missing bucket is reported with the bare [ErrNotExist], next to the
    empty list made before the transaction. *)
Definition GetKeyByPrefix (fuel : nat) (b : BoltDB) (namespace prefix : string)
  : option (option (list string) * option error) :=
  if negb (IsReady b) then Some (None, Some ErrDBNotStarted)
  else
    match db b !! namespace with
    | None => Some (Some [], Some ErrNotExist)
    | Some buck =>
        let c := bucket_Cursor buck in
        let '(c, kv) := Seek prefix c in
        match GetKeyByPrefix_loop fuel prefix c kv [] with
        | Some allKey => Some (Some allKey, None)
        | None => None
        end
    end.

(** ** The forced failure *)

(** What the store answers inside the one transaction of
    [batchPutForceFail], which has no retry loop around it: the error,
    if any, of [CreateBucketIfNotExists] (bbolt refuses a blank name),
    of the [i]-th [bucket.Put] (bbolt refuses a blank key, a key or a
    value that is too large), and of the commit. *)
Record TxFaults : Type := mkTxFaults {
  onCreate : option error;
  onPut : nat -> option error;
  onCommit : option error
}.

(** A store call with the answer of the store: [if err != nil { return
    err }], the call itself otherwise. *)
Definition checked (err : option error) (call : Tx unit) : Tx unit :=
  match err with
  | Some e => tx_fail e
  | None => call
  end.

(** The loop of [batchPutForceFail]: [for i := 0; i < len(key); i++],
    with [n] rounds left. *)
Fixpoint batchPutForceFail_loop (fault : TxFaults) (namespace : string)
    (key value : list string) (n i : nat) : Tx unit :=
  match n with
  | 0 => tx_ret tt
  | S n' =>
      match key !! i, value !! i with
      | Some k, Some v =>
          checked (onPut fault i) (bucket_Put namespace k v) ;;;
          if (i =? length key - 1)%nat then tx_fail (Wrapped ErrIO)
          else batchPutForceFail_loop fault namespace key value n' (S i)
      | _, _ => tx_ret tt
      end
  end.

Definition batchPutForceFail_tx (fault : TxFaults) (namespace : string)
    (key value : list string) : Tx unit :=
  checked (onCreate fault) (tx_CreateBucketIfNotExists namespace) ;;;
  if negb (length key =? length value)%nat then tx_fail (Wrapped ErrIO)
  else batchPutForceFail_loop fault namespace key value (length key) 0.

(** [BoltDB.batchPutForceFail]: one transaction, no retry, the error of
    [db.Update] returned as it is. *)
Definition batchPutForceFail (b : BoltDB) (fault : TxFaults)
    (namespace : string) (key value : list string) : option error * BoltDB :=
  if negb (IsReady b) then (Some ErrDBNotStarted, b)
  else
    let '(err, s) :=
      Update (batchPutForceFail_tx fault namespace key value)
             (onCommit fault) (db b) in
    (err, with_db b s).

(** * Specification-level definitions *)

(** ** Keys of a bucket *)

(** Strictly ascending keys. *)
Definition entry_lt (x y : entry) : Prop := String.ltb x.1 y.1 = true.

(** [kv] is the stored entry with the least key that satisfies [P], or
    nothing when no stored key satisfies [P]. *)
Definition least_in (b : Bucket) (P : string -> Prop) (kv : option entry) : Prop :=
  match kv with
  | Some (k, v) =>
      b !! k = Some v /\ P k /\
      forall k', is_Some (b !! k') -> P k' -> String.le k k'
  | None => forall k', is_Some (b !! k') -> ~ P k'
  end.

(** [kv] is the stored entry with the greatest key that satisfies [P]. *)
Definition greatest_in (b : Bucket) (P : string -> Prop) (kv : option entry) : Prop :=
  match kv with
  | Some (k, v) =>
      b !! k = Some v /\ P k /\
      forall k', is_Some (b !! k') -> P k' -> String.le k' k
  | None => forall k', is_Some (b !! k') -> ~ P k'
  end.

(** ** Attempts *)

(** The error of attempt [c], if it fails: every attempt before a
    success starts from the same store, a failed one leaves nothing
    behind. *)
Definition failure (fn : Tx unit) (env : nat -> option error) (s : Store)
    (c : nat) : option error :=
  (Update fn (env c) s).1.

(** The first attempt that goes through is attempt [i]. *)
Definition commits_at (fn : Tx unit) (env : nat -> option error) (s : Store)
    (i : nat) : Prop :=
  failure fn env s i = None /\ forall j, j < i -> failure fn env s j <> None.

(** The store lets attempt [i] go through, and no attempt before it. *)
Definition first_commit (env : nat -> option error) (i : nat) : Prop :=
  env i = None /\ forall j, j < i -> env j <> None.

(** ** The coalescing pass *)

(** Only [Put] and [Delete] take part. *)
Definition participates (w : batch.WriteInfo) : bool :=
  bool_decide (batch.writeType w = batch.Put)
  || bool_decide (batch.writeType w = batch.Delete).

Definition same_key (w w' : batch.WriteInfo) : bool :=
  bool_decide ((batch.namespace w, batch.key w)
               = (batch.namespace w', batch.key w')).

(** The coalescing pass as the specification words it: an operation
    survives when it takes part and no later operation that takes part
    writes the same (namespace, key); the survivors keep the order of the
    batch. *)
Fixpoint last_writes (l : list batch.WriteInfo) : list batch.WriteInfo :=
  match l with
  | [] => []
  | w :: rest =>
      if participates w
         && negb (existsb (fun w' => participates w' && same_key w w') rest)
      then w :: last_writes rest
      else last_writes rest
  end.

(** The operations of a list applied one after the other. *)
Fixpoint apply_writes (l : list batch.WriteInfo) : Tx unit :=
  match l with
  | [] => tx_ret tt
  | w :: rest => WriteBatch_step w ;;; apply_writes rest
  end.

(** ** Scans *)

(** The entries from the first key at or after [minKey] on. *)
Fixpoint skip_below (minKey : string) (l : list entry) : list entry :=
  match l with
  | [] => []
  | e :: rest => if String.ltb e.1 minKey then skip_below minKey rest else l
  end.

(** The entries up to, and without, the first key strictly greater than
    [maxKey]. *)
Fixpoint scan_to (maxKey : string) (l : list entry) : list entry :=
  match l with
  | [] => []
  | e :: rest => if String.ltb maxKey e.1 then [] else e :: scan_to maxKey rest
  end.

(** The entries [Filter] visits, as the specification words it: start
    at [minKey], or at the first key when [minKey] is absent, and stop at
    the first key greater than [maxKey] when [maxKey] is given. *)
Definition visited (minKey maxKey : string) (l : list entry) : list entry :=
  let from := if (0 <? String.length minKey)%nat then skip_below minKey l else l in
  if (0 <? String.length maxKey)%nat then scan_to maxKey from else from.

(** ** Range index *)

(** The [n] low bytes of [v], most significant first. *)
Fixpoint big_endian (n : nat) (v : Z) : string :=
  match n with
  | 0 => ""
  | S n' => String (byte_of (Z.shiftr v (8 * Z.of_nat n'))) (big_endian n' v)
  end.

(** The anchor of a domain value: [key - 1] in unsigned 64-bit
    arithmetic, encoded. *)
Definition anchor (key : Z) : string := Uint64ToBytesBigEndian (wrap64 (key - 1)).

(** What [Insert] writes, as the specification words it.  [kv] is the
    smallest stored boundary at or after the anchor [ak], [nxt] the
    smallest stored boundary after [ak]. *)
Definition Insert_bucket (ak value : string) (kv nxt : option entry)
    (bkt : Bucket) : Bucket :=
  match kv with
  | None => <[ak := ""]> bkt
  | Some (k, v) =>
      if decide (k = ak)
      then match nxt with
           | Some (k', _) => <[k' := value]> bkt
           | None => bkt
           end
      else <[k := value]> (<[ak := v]> bkt)
  end.

(** What [Remove] leaves, as the specification words it.  [nxt] is the
    smallest stored boundary after the anchor [ak]. *)
Definition Remove_bucket (ak : string) (nxt : option entry) (bkt : Bucket) : Bucket :=
  match bkt !! ak with
  | Some v =>
      match nxt with
      | Some (k', _) => <[k' := v]> (delete ak bkt)
      | None => delete ak bkt
      end
  | None => bkt
  end.

(** The keys of [l] deleted from a bucket, first to last. *)
Definition delete_entries (l : list entry) (m : Bucket) : Bucket :=
  foldl (fun m e => delete e.1 m) m l.

(** The greatest 8-byte key: eight bytes 0xFF. *)
Definition max_key : string :=
  String "255" (String "255" (String "255" (String "255"
 (String "255" (String "255" (String "255" (String "255" ""))))))).

(** ** The mutating operations *)

Section Marker.

(** The marker value of the range index, see [Purge]. *)
Variable NotExist : string.

(** The six mutating operations. *)
Inductive mutation : Type :=
| MPut (namespace key value : string)
| MDelete (namespace : string) (key : option string)
| MWriteBatch (kvsb : batch.KVStoreBatch)
| MInsert (name : string) (key : Z) (value : string)
| MRemove (name : string) (key : Z)
| MPurge (name : string) (key : Z).

Definition run (m : mutation) (b : BoltDB) (env : nat -> option error)
  : outcome (option error) * BoltDB * nat :=
  match m with
  | MPut namespace key value => Put b env namespace key value
  | MDelete namespace key => Delete b env namespace key
  | MWriteBatch kvsb => WriteBatch b env kvsb
  | MInsert name key value => Insert b env name key value
  | MRemove name key => Remove b env name key
  | MPurge name key => Purge NotExist b env name key
  end.

(** What one transaction attempt of the operation does. *)
Definition body (m : mutation) : Tx unit :=
  match m with
  | MPut namespace key value => Put_tx namespace key value
  | MDelete namespace key => Delete_tx namespace key
  | MWriteBatch kvsb => apply_writes (last_writes kvsb)
  | MInsert name key value => Insert_tx name key value
  | MRemove name key => Remove_tx name key
  | MPurge name key => Purge_tx NotExist name key
  end.

(** What [Purge] leaves, as the specification words it.  [kv] is the
    smallest stored boundary at or after the key. *)
Definition Purge_bucket (kv : option entry) (bkt : Bucket) : Bucket :=
  match kv with
  | Some (nk, _) =>
      <[nk := NotExist]> (filter (fun e : entry => String.le nk e.1) bkt)
  | None => ∅
  end.

End Marker.

(** ** What is stored *)

(** The value stored under a key of a namespace, if any. *)
Definition stored (s : Store) (namespace key : string) : option string :=
  match s !! namespace with
  | Some bkt => bkt !! key
  | None => None
  end.

(** What a write leaves under its key: the value of a [Put], nothing
    for a [Delete]. *)
Definition effect (w : batch.WriteInfo) : option string :=
  match batch.writeType w with
  | batch.Put => Some (batch.value w)
  | _ => None
  end.

(** What a batch amounts to for one key: the effect of the last [Put]
    or [Delete] of that key in the batch, or [None] when the batch does
    not write the key. *)
Fixpoint net (l : list batch.WriteInfo) (namespace key : string)
  : option (option string) :=
  match l with
  | [] => None
  | w :: rest =>
      match net rest namespace key with
      | Some r => Some r
      | None =>
          if participates w
             && bool_decide ((batch.namespace w, batch.key w) = (namespace, key))
          then Some (effect w)
          else None
      end
  end.

(** ** The forced failure *)

(** The error that ends the loop of [batchPutForceFail] with [n] rounds
    left at index [i]: the answer of the first [Put] the store refuses,
    the forced IO error when it refuses none. *)
Fixpoint forced_error (fault : TxFaults) (n i : nat) : error :=
  match n with
  | 0 => Wrapped ErrIO
  | S n' =>
      match onPut fault i with
      | Some e => e
      | None => forced_error fault n' (S i)
      end
  end.

(** ** Engines and batches for the examples *)

Definition batch_v1_v2 : batch.KVStoreBatch :=
  [ batch.mkWriteInfo batch.Put "ns" "k" "v1";
    batch.mkWriteInfo batch.Delete "ns" "j" "";
    batch.mkWriteInfo (batch.Other 7) "ns" "k" "v3";
    batch.mkWriteInfo batch.Put "ns" "k" "v2" ].

Definition engine0 : BoltDB := mkBoltDB true ∅ (mkConfig 3).

Definition no_fault : nat -> option error := fun _ => None.

Definition engine_abc : BoltDB :=
  mkBoltDB true
    {[ "ns" := {[ "b" := "2"; "a" := "1"; "d" := "4"; "c" := "3" ]} ]}
    (mkConfig 3).

(** An index with boundaries at 50 and 100. *)
Definition index_50_100 : Bucket :=
  {[ Uint64ToBytesBigEndian 50 := "a"; Uint64ToBytesBigEndian 100 := "b" ]}.

Definition engine_idx : BoltDB :=
  mkBoltDB true {[ "idx" := index_50_100 ]} (mkConfig 3).

Definition first_fails : nat -> option error :=
  fun c => match c with 0 => Some (ErrStore 1) | _ => None end.

(** An index whose boundary at 50 stores the empty value. *)
Definition engine_idx_empty : BoltDB :=
  mkBoltDB true {[ "idx" := {[ Uint64ToBytesBigEndian 50 := "" ]} ]} (mkConfig 3).

(** A store that refuses nothing, and one that refuses the first
    [Put] of a transaction. *)
Definition no_tx_fault : TxFaults := mkTxFaults None (fun _ => None) None.

Definition first_put_refused : TxFaults :=
  mkTxFaults None (fun i => match i with 0 => Some (ErrStore 2) | _ => None end)
             None.

(** An engine that was not started. *)
Definition engine_stopped : BoltDB :=
  mkBoltDB false {[ "ns" := {[ "a" := "1" ]} ]} (mkConfig 3).

(** An engine configured with no attempt at all. *)
Definition engine_no_retry : BoltDB :=
  mkBoltDB true {[ "ns" := {[ "a" := "1" ]} ]} (mkConfig 0).

(** An engine with four buckets, three of them on the prefix a. *)
Definition engine_buckets : BoltDB :=
  mkBoltDB true
    {[ "ab" := ∅; "a" := {[ "k" := "v" ]}; "b" := ∅; "aa" := ∅ ]}
    (mkConfig 3).

(** * Properties *)

(** ** The order on keys *)

Lemma compare_refl (s : string) : String.compare s s = Eq.
Proof.
  induction s as [|a s IH]; simpl; [done|].
  unfold Ascii.compare. by rewrite N.compare_refl.
Qed.

Lemma ltb_not_le (a b : string) : String.ltb a b = true <-> ~ String.le b a.
Proof.
  unfold String.le, String.ltb, String.leb.
  rewrite (String.compare_antisym a b).
  destruct (String.compare b a); simpl; intuition congruence.
Qed.

Lemma ltb_false_le (a b : string) : String.ltb a b = false <-> String.le b a.
Proof.
  unfold String.le, String.ltb, String.leb.
  rewrite (String.compare_antisym a b).
  destruct (String.compare b a); simpl; intuition congruence.
Qed.

Lemma ltb_le (a b : string) : String.ltb a b = true -> String.le a b.
Proof.
  unfold String.le, String.ltb, String.leb.
  destruct (String.compare a b); simpl; done.
Qed.

Lemma ltb_irrefl (a : string) : String.ltb a a = false.
Proof. unfold String.ltb. by rewrite compare_refl. Qed.

Lemma le_ne_ltb (a b : string) : String.le a b -> a <> b -> String.ltb a b = true.
Proof.
  intros Hle Hne. apply ltb_not_le. intros Hba.
  apply Hne. by apply (anti_symm String.le).
Qed.

Lemma ltb_le_trans (a b c : string) :
  String.ltb a b = true -> String.le b c -> String.ltb a c = true.
Proof.
  intros Hab Hbc. apply ltb_not_le. intros Hca.
  apply ltb_not_le in Hab. apply Hab. by trans c.
Qed.

Lemma le_ltb_trans (a b c : string) :
  String.le a b -> String.ltb b c = true -> String.ltb a c = true.
Proof.
  intros Hab Hbc. apply ltb_not_le. intros Hca.
  apply ltb_not_le in Hbc. apply Hbc. by trans a.
Qed.

Lemma bytes_Compare_gt (a b : string) :
  (bytes_Compare a b =? 1)%Z = String.ltb b a.
Proof.
  unfold bytes_Compare, String.ltb.
  rewrite (String.compare_antisym a b).
  by destruct (String.compare b a).
Qed.

#[global] Instance entry_le_trans : Transitive entry_le.
Proof. intros x y z. unfold entry_le. apply transitivity. Qed.

#[global] Instance entry_le_total : Total entry_le.
Proof. intros x y. unfold entry_le. apply total, _. Qed.

(** ** The entries of a bucket *)

Lemma elem_of_entries (b : Bucket) (k v : string) :
  (k, v) ∈ entries b <-> b !! k = Some v.
Proof.
  unfold entries. rewrite merge_sort_Permutation.
  apply elem_of_map_to_list.
Qed.

Lemma NoDup_fst_entries (b : Bucket) : NoDup (entries b).*1.
Proof.
  unfold entries. rewrite merge_sort_Permutation.
  apply NoDup_fst_map_to_list.
Qed.

Lemma StronglySorted_strict (l : list entry) :
  StronglySorted entry_le l -> NoDup l.*1 -> StronglySorted entry_lt l.
Proof.
  induction 1 as [|x l Hs IH Hall]; intros Hnd; [constructor|].
  rewrite fmap_cons in Hnd. apply NoDup_cons in Hnd as [Hx Hnd].
  constructor; [by apply IH|].
  apply Forall_forall. intros y Hy.
  rewrite Forall_forall in Hall.
  apply le_ne_ltb; [by apply Hall|].
  intros Heq. apply Hx. rewrite Heq.
  apply list_elem_of_fmap. by exists y.
Qed.

Lemma entries_sorted (b : Bucket) : StronglySorted entry_lt (entries b).
Proof.
  apply StronglySorted_strict; [|apply NoDup_fst_entries].
  unfold entries. apply StronglySorted_merge_sort; apply _.
Qed.

(** ** Cursors *)

Lemma seek_from_split (key : string) (bef aft : list entry) :
  exists lo hi,
    aft = lo ++ hi /\
    seek_from key bef aft = mkCursor (reverse lo ++ bef) hi /\
    Forall (fun e => String.ltb e.1 key = true) lo /\
    (forall e, head hi = Some e -> String.le key e.1).
Proof.
  revert bef. induction aft as [|e aft IH]; intros bef; simpl.
  - exists [], []. repeat split; [constructor|]. intros e [=].
  - destruct (String.ltb e.1 key) eqn:He.
    + destruct (IH (e :: bef)) as (lo & hi & -> & Hs & Hlo & Hhi).
      exists (e :: lo), hi. repeat split; [|by constructor|done].
      rewrite Hs, reverse_cons, <- app_assoc. done.
    + exists [], (e :: aft). repeat split; [constructor|].
      intros e' [= <-]. by apply ltb_false_le.
Qed.

Lemma sorted_head_le (l : list entry) (e x : entry) :
  StronglySorted entry_lt l -> head l = Some e -> x ∈ l -> String.le e.1 x.1.
Proof.
  intros Hs Hh Hx. destruct l as [|e' l]; [done|].
  injection Hh as ->. apply StronglySorted_inv in Hs as [_ Hall].
  apply elem_of_cons in Hx as [->|Hx]; [done|].
  rewrite Forall_forall in Hall. by apply ltb_le, Hall.
Qed.

(** Where [Seek] leaves a fresh cursor: the entries in front have keys
    below [key], the others keys at or above it. *)
Lemma Seek_entries (b : Bucket) (key : string) :
  exists lo hi,
    entries b = lo ++ hi /\
    Seek key (bucket_Cursor b) = (mkCursor (reverse lo) hi, head hi) /\
    Forall (fun e => String.ltb e.1 key = true) lo /\
    Forall (fun e => String.le key e.1) hi.
Proof.
  unfold Seek, bucket_Cursor. simpl.
  destruct (seek_from_split key [] (entries b)) as (lo & hi & He & Hs & Hlo & Hhi).
  exists lo, hi. rewrite Hs, app_nil_r. simpl. repeat split; try done.
  apply Forall_forall. intros x Hx.
  destruct hi as [|e hi]; [by apply elem_of_nil in Hx|].
  trans e.1; [by apply Hhi|].
  apply (sorted_head_le (e :: hi)); [|done..].
  pose proof (entries_sorted b) as Hsort. rewrite He in Hsort.
  by apply StronglySorted_app_1_r in Hsort.
Qed.

(** ** Least and greatest keys of a bucket *)

Lemma least_in_unique (b : Bucket) (P : string -> Prop) (kv1 kv2 : option entry) :
  least_in b P kv1 -> least_in b P kv2 -> kv1 = kv2.
Proof.
  destruct kv1 as [[k1 v1]|], kv2 as [[k2 v2]|]; simpl; try done.
  - intros (H1 & HP1 & Hmin1) (H2 & HP2 & Hmin2).
    assert (k1 = k2) as ->.
    { apply (anti_symm String.le); [apply Hmin1|apply Hmin2]; eauto. }
    congruence.
  - intros (H1 & HP1 & _) H2. exfalso. eapply H2; eauto.
  - intros H1 (H2 & HP2 & _). exfalso. eapply H1; eauto.
Qed.

Lemma greatest_in_unique (b : Bucket) (P : string -> Prop) (kv1 kv2 : option entry) :
  greatest_in b P kv1 -> greatest_in b P kv2 -> kv1 = kv2.
Proof.
  destruct kv1 as [[k1 v1]|], kv2 as [[k2 v2]|]; simpl; try done.
  - intros (H1 & HP1 & Hmax1) (H2 & HP2 & Hmax2).
    assert (k1 = k2) as ->.
    { apply (anti_symm String.le); [apply Hmax2|apply Hmax1]; eauto. }
    congruence.
  - intros (H1 & HP1 & _) H2. exfalso. eapply H2; eauto.
  - intros H1 (H2 & HP2 & _). exfalso. eapply H1; eauto.
Qed.

(** Every bucket has a least entry and a greatest entry for a
    decidable property of keys, or none with the property: the first,
    respectively last, such entry in ascending order. *)
Lemma least_in_exists (b : Bucket) (p : string -> bool) :
  least_in b (fun k => p k = true) (List.find (fun e : entry => p e.1) (entries b)).
Proof.
  assert (H : forall l, StronglySorted entry_lt l ->
    match List.find (fun e : entry => p e.1) l with
    | Some (k, v) =>
        (k, v) ∈ l /\ p k = true
        /\ forall e, e ∈ l -> p e.1 = true -> String.le k e.1
    | None => forall e, e ∈ l -> p e.1 <> true
    end).
  { induction 1 as [|[k v] l Hs IH Hall]; simpl.
    - by intros e ?%elem_of_nil.
    - rewrite Forall_forall in Hall.
      destruct (p k) eqn:Hp.
      + split; [left|]. split; [done|].
        intros e [->|He]%elem_of_cons _; [done|]. by apply ltb_le, Hall.
      + destruct (List.find _ l) as [[k' v']|].
        * destruct IH as (Hin & Hp' & Hmin). split; [by right|].
          split; [done|]. intros e [->|He]%elem_of_cons Hpe; [|by apply Hmin].
          simpl in Hpe. congruence.
        * intros e [->|He]%elem_of_cons; [simpl; congruence|by apply IH]. }
  specialize (H _ (entries_sorted b)).
  destruct (List.find _ (entries b)) as [[k v]|]; simpl.
  - destruct H as (Hin & Hp & Hmin). split; [by apply elem_of_entries|].
    split; [done|]. intros k' [v' Hk'] Hp'.
    apply (Hmin (k', v')); [by apply elem_of_entries|done].
  - intros k' [v' Hk'] Hp'. apply (H (k', v')); [by apply elem_of_entries|done].
Qed.

Lemma least_in_ext (b : Bucket) (P Q : string -> Prop) (kv : option entry) :
  (forall k, P k <-> Q k) -> least_in b P kv -> least_in b Q kv.
Proof.
  intros HPQ. destruct kv as [[k v]|]; simpl.
  - intros (Hk & HP & Hmin). split; [done|]. split; [by apply HPQ|].
    intros k' Hk' HQ. apply Hmin; [done|by apply HPQ].
  - intros Hnone k' Hk' HQ. apply (Hnone k' Hk'). by apply HPQ.
Qed.

Lemma least_ge_exists (b : Bucket) (key : string) :
  exists kv, least_in b (String.le key) kv.
Proof.
  exists (List.find (fun e : entry => String.leb key e.1) (entries b)).
  eapply least_in_ext; [|apply (least_in_exists b (String.leb key))].
  intros k. unfold String.le. by destruct (String.leb key k).
Qed.

Lemma least_gt_exists (b : Bucket) (key : string) :
  exists kv, least_in b (fun k => String.ltb key k = true) kv.
Proof.
  exists (List.find (fun e : entry => String.ltb key e.1) (entries b)).
  apply (least_in_exists b (String.ltb key)).
Qed.

(** A split of the sorted entries into those that fail [P] and those
    that satisfy it has the least entry with [P] at the head of the
    second part. *)
Lemma split_least (b : Bucket) (P : string -> Prop) (lo hi : list entry) :
  entries b = lo ++ hi ->
  Forall (fun e => ~ P e.1) lo ->
  Forall (fun e => P e.1) hi ->
  least_in b P (head hi).
Proof.
  intros He Hlo Hhi.
  pose proof (entries_sorted b) as Hsort. rewrite He in Hsort.
  rewrite Forall_forall in Hlo. rewrite Forall_forall in Hhi.
  assert (Hin : forall k v, b !! k = Some v -> (k, v) ∈ lo \/ (k, v) ∈ hi).
  { intros k v Hkv. apply elem_of_entries in Hkv.
    rewrite He in Hkv. by apply elem_of_app in Hkv. }
  destruct hi as [|[k v] hi]; simpl.
  - intros k' [v' Hk'] HP. destruct (Hin _ _ Hk') as [H|H].
    + by apply (Hlo _ H).
    + by apply elem_of_nil in H.
  - split; [|split].
    + apply elem_of_entries. rewrite He. apply elem_of_app. right. left.
    + apply (Hhi (k, v)). left.
    + intros k' [v' Hk'] HP. destruct (Hin _ _ Hk') as [H|H].
      * by destruct (Hlo _ H).
      * apply StronglySorted_app_1_r in Hsort.
        by apply (sorted_head_le ((k, v) :: hi) (k, v) (k', v')).
Qed.

Lemma sorted_last_le (l : list entry) (e x : entry) :
  StronglySorted entry_lt l -> last l = Some e -> x ∈ l -> String.le x.1 e.1.
Proof.
  induction l as [|y l IH]; intros Hs Hl Hx; [done|].
  apply StronglySorted_inv in Hs as [Hs Hall].
  rewrite Forall_forall in Hall.
  destruct l as [|z l].
  - injection Hl as ->. apply list_elem_of_singleton in Hx as ->. done.
  - rewrite last_cons_cons in Hl.
    apply elem_of_cons in Hx as [->|Hx]; [|by apply IH].
    apply ltb_le, Hall. by eapply last_Some_elem_of.
Qed.

(** Dually, the greatest entry with [P] is the last of the first part. *)
Lemma split_greatest (b : Bucket) (P : string -> Prop) (lo hi : list entry) :
  entries b = lo ++ hi ->
  Forall (fun e => P e.1) lo ->
  Forall (fun e => ~ P e.1) hi ->
  greatest_in b P (last lo).
Proof.
  intros He Hlo Hhi.
  pose proof (entries_sorted b) as Hsort. rewrite He in Hsort.
  rewrite Forall_forall in Hlo. rewrite Forall_forall in Hhi.
  assert (Hin : forall k v, b !! k = Some v -> (k, v) ∈ lo \/ (k, v) ∈ hi).
  { intros k v Hkv. apply elem_of_entries in Hkv.
    rewrite He in Hkv. by apply elem_of_app in Hkv. }
  destruct (last lo) as [[k v]|] eqn:Hlast; simpl.
  - pose proof (last_Some_elem_of _ _ Hlast) as Hkv.
    split; [|split].
    + apply elem_of_entries. rewrite He. apply elem_of_app. by left.
    + by apply (Hlo (k, v)).
    + intros k' [v' Hk'] HP. destruct (Hin _ _ Hk') as [H|H].
      * apply StronglySorted_app_1_l in Hsort.
        by apply (sorted_last_le lo (k, v) (k', v')).
      * by destruct (Hhi _ H).
  - apply last_None in Hlast as ->.
    intros k' [v' Hk'] HP. destruct (Hin _ _ Hk') as [H|H].
    + by apply elem_of_nil in H.
    + by apply (Hhi _ H).
Qed.

(** ** The retry loop *)

Lemma Update_failed (fn : Tx unit) (fault : option error) (s : Store) (e : error) :
  (Update fn fault s).1 = Some e -> Update fn fault s = (Some e, s).
Proof.
  unfold Update. destruct (fn s) as [e'|[[] s']]; simpl.
  - by intros [= ->].
  - destruct fault; simpl; [by intros [= ->]|done].
Qed.

Lemma retry_exhausted (fn : Tx unit) (env : nat -> option error) (s : Store) :
  forall n c err,
    (forall j, j < n -> failure fn env s (c + j) <> None) ->
    retry fn env n c s err =
      (match n with 0 => err | S n' => failure fn env s (c + n') end, s, c + n).
Proof.
  induction n as [|n IH]; intros c err Hfail; simpl.
  - by rewrite Nat.add_0_r.
  - pose proof (Hfail 0 ltac:(lia)) as H0. rewrite Nat.add_0_r in H0.
    unfold failure in H0.
    pose proof (Update_failed fn (env c) s) as Hf.
    destruct (Update fn (env c) s) as [[e|] s1] eqn:Hu; [|done].
    specialize (Hf e eq_refl). injection Hf as ->.
    rewrite IH.
    + f_equal; [|lia]. f_equal.
      destruct n as [|n].
      * unfold failure. by rewrite Nat.add_0_r, Hu.
      * f_equal. lia.
    + intros j Hj. replace (S c + j) with (c + S j) by lia.
      apply Hfail. lia.
Qed.

Lemma retry_committed (fn : Tx unit) (env : nat -> option error) (s s' : Store) :
  forall j n c err,
    j < n ->
    Update fn (env (c + j)) s = (None, s') ->
    (forall j', j' < j -> failure fn env s (c + j') <> None) ->
    retry fn env n c s err = (None, s', S (c + j)).
Proof.
  induction j as [|j IH]; intros n c err Hn Hok Hfail;
    (destruct n as [|n]; [lia|]); simpl.
  - rewrite Nat.add_0_r in *. by rewrite Hok.
  - pose proof (Hfail 0 ltac:(lia)) as H0. rewrite Nat.add_0_r in H0.
    unfold failure in H0.
    pose proof (Update_failed fn (env c) s) as Hf.
    destruct (Update fn (env c) s) as [[e|] s1] eqn:Hu; [|done].
    specialize (Hf e eq_refl). injection Hf as ->.
    rewrite (IH n (S c) (Some e)); [f_equal; lia|lia| |].
    + by replace (S c + j) with (c + S j) by lia.
    + intros j' Hj'. replace (S c + j') with (c + S j') by lia.
      apply Hfail. lia.
Qed.

(** Two bodies that act alike are retried alike. *)
Lemma retry_ext (fn fn' : Tx unit) (env : nat -> option error) :
  (forall s, fn s = fn' s) ->
  forall n c s err, retry fn env n c s err = retry fn' env n c s err.
Proof.
  intros Heq. induction n as [|n IH]; intros c s err; simpl; [done|].
  unfold Update. rewrite Heq.
  destruct (fn' s) as [e|[[] s1]]; [apply IH|].
  destruct (env c); [apply IH|done].
Qed.

Lemma with_retries_ext (b : BoltDB) (env : nat -> option error) (fn fn' : Tx unit) :
  (forall s, fn s = fn' s) -> with_retries b env fn = with_retries b env fn'.
Proof. intros Heq. unfold with_retries. by rewrite (retry_ext fn fn'). Qed.

Lemma with_retries_committed (b : BoltDB) (env : nat -> option error)
    (fn : Tx unit) (i : nat) (s' : Store) :
  i < NumRetries (config b) ->
  commits_at fn env (db b) i ->
  fn (db b) = inr (tt, s') ->
  with_retries b env fn = (Returned None, with_db b s', S i).
Proof.
  intros Hi [Hok Hfail] Hfn. unfold with_retries.
  rewrite (retry_committed fn env (db b) s' i); [done|done| |done].
  simpl. unfold failure, Update in *. rewrite Hfn in *.
  by destruct (env i).
Qed.

Lemma with_retries_exhausted (b : BoltDB) (env : nat -> option error)
    (fn : Tx unit) (n : nat) :
  NumRetries (config b) = S n ->
  (forall j, j <= n -> failure fn env (db b) j <> None) ->
  with_retries b env fn =
    (escalate (failure fn env (db b) n), with_db b (db b), S n).
Proof.
  intros HN Hfail. unfold with_retries.
  rewrite retry_exhausted, HN; [done|].
  intros j Hj. apply Hfail. lia.
Qed.

(** ** WriteBatch: the coalescing pass *)

Lemma existsb_same_key (w : batch.WriteInfo) (l : list batch.WriteInfo) :
  existsb (fun w' => participates w' && same_key w w') l = true
  <-> exists w', w' ∈ l /\ participates w' = true
                 /\ (batch.namespace w', batch.key w')
                    = (batch.namespace w, batch.key w).
Proof.
  rewrite existsb_exists. split.
  - intros (w' & Hin & Hb). apply andb_true_iff in Hb as [Hp Hk].
    exists w'. apply list_elem_of_In in Hin.
    unfold same_key in Hk. apply bool_decide_eq_true in Hk. done.
  - intros (w' & Hin & Hp & Hk). exists w'. split; [by apply list_elem_of_In|].
    apply andb_true_iff. split; [done|].
    unfold same_key. by apply bool_decide_eq_true.
Qed.

(** [last_writes] keeps the order of the batch, keeps only operations
    that take part, keeps at most one operation per (namespace, key),
    and keeps an operation that no later one overwrites. *)
Lemma last_writes_sublist (l : list batch.WriteInfo) :
  last_writes l `sublist_of` l.
Proof.
  induction l as [|w l IH]; simpl; [constructor|].
  destruct (participates w && _); by constructor.
Qed.

Lemma last_writes_participate (l : list batch.WriteInfo) (w : batch.WriteInfo) :
  w ∈ last_writes l -> participates w = true.
Proof.
  induction l as [|w' l IH]; simpl; [by intros ?%elem_of_nil|].
  destruct (participates w') eqn:Hp; simpl; [|done].
  destruct (existsb _ l); simpl; [done|].
  intros [->|Hin]%elem_of_cons; auto.
Qed.

Lemma last_writes_keys_NoDup (l : list batch.WriteInfo) :
  NoDup ((fun w => (batch.namespace w, batch.key w)) <$> last_writes l).
Proof.
  induction l as [|w l IH]; simpl; [constructor|].
  destruct (participates w) eqn:Hp; simpl; [|done].
  destruct (existsb _ l) eqn:He; simpl; [done|].
  constructor; [|done].
  intros Hin. apply list_elem_of_fmap in Hin as (w' & Hk & Hw').
  assert (existsb (fun w' => participates w' && same_key w w') l = true) as Hex;
    [|congruence].
  apply existsb_same_key. exists w'. split; [|split; [|done]].
  - eapply elem_of_sublist; [done|apply last_writes_sublist].
  - by eapply last_writes_participate.
Qed.

Lemma last_writes_last (l1 l2 : list batch.WriteInfo) (w : batch.WriteInfo) :
  participates w = true ->
  (forall w', w' ∈ l2 -> participates w' = true ->
     (batch.namespace w', batch.key w') <> (batch.namespace w, batch.key w)) ->
  w ∈ last_writes (l1 ++ w :: l2).
Proof.
  intros Hp Hl2. induction l1 as [|w1 l1 IH]; simpl.
  - rewrite Hp. simpl.
    destruct (existsb _ l2) eqn:He; [|left].
    apply existsb_same_key in He as (w' & Hin & Hp' & Hk).
    by destruct (Hl2 w' Hin Hp').
  - destruct (participates w1 && _); [by right|done].
Qed.

Lemma WriteBatch_tx_reverse (uniqEntries : list batch.WriteInfo) (s : Store) :
  WriteBatch_tx uniqEntries (length uniqEntries) s
  = apply_writes (reverse uniqEntries) s.
Proof.
  assert (H : forall n, n <= length uniqEntries ->
            forall s, WriteBatch_tx uniqEntries n s
                      = apply_writes (reverse (take n uniqEntries)) s).
  { induction n as [|n IH]; intros Hn s0; cbn [WriteBatch_tx]; [done|].
    destruct (lookup_lt_is_Some_2 uniqEntries n ltac:(lia)) as [w Hw].
    rewrite Hw, (take_S_r _ _ _ Hw), reverse_snoc. simpl.
    unfold tx_bind. destruct (WriteBatch_step w s0) as [e|[[] s1]]; [done|].
    apply IH. lia. }
  rewrite H by done. by rewrite firstn_all.
Qed.


Lemma WriteBatch_scan_suffix (kvsb : batch.KVStoreBatch) :
  forall n entryKeySet uniqEntries,
    n <= length kvsb ->
    (forall k, k ∈ entryKeySet <->
       exists w, w ∈ drop n kvsb /\ participates w = true
                 /\ (batch.namespace w, batch.key w) = k) ->
    reverse uniqEntries = last_writes (drop n kvsb) ->
    exists keys uniq,
      WriteBatch_scan kvsb n entryKeySet uniqEntries = inr (keys, uniq)
      /\ reverse uniq = last_writes kvsb.
Proof.
  induction n as [|n IH]; intros keys uniq Hn Hkeys Huniq;
    cbn [WriteBatch_scan].
  - exists keys, uniq. by rewrite drop_0 in Huniq.
  - destruct (lookup_lt_is_Some_2 kvsb n ltac:(lia)) as [w Hw].
    unfold batch.Entry. rewrite Hw.
    pose proof (drop_S _ _ _ Hw) as Hdrop.
    assert (Hp : bool_decide (batch.writeType w <> batch.Put)
                 && bool_decide (batch.writeType w <> batch.Delete)
                 = negb (participates w)).
    { unfold participates. rewrite negb_orb.
      by rewrite !bool_decide_not. }
    rewrite Hp.
    assert (Hex : (batch.namespace w, batch.key w) ∈ keys <->
                  existsb (fun w' => participates w' && same_key w w')
                          (drop (S n) kvsb) = true).
    { rewrite Hkeys, existsb_same_key. done. }
    destruct (participates w) eqn:Hpw; simpl.
    + destruct (decide ((batch.namespace w, batch.key w) ∈ keys)) as [Hin|Hnin].
      * apply IH; [lia| |].
        -- intros k. rewrite Hdrop. split.
           ++ intros Hk. apply Hkeys in Hk as (w' & Hw' & H').
              exists w'. split; [by right|done].
           ++ intros (w' & Hw' & Hpw' & <-).
              apply elem_of_cons in Hw' as [->|Hw']; [done|].
              apply Hkeys. eauto.
        -- rewrite Hdrop. simpl. rewrite Hpw.
           apply Hex in Hin. by rewrite Hin.
      * apply IH; [lia| |].
        -- intros k. rewrite Hdrop, elem_of_union, elem_of_singleton. split.
           ++ intros [->|Hk]; [exists w; split; [by left|done]|].
              apply Hkeys in Hk as (w' & Hw' & H').
              exists w'. split; [by right|done].
           ++ intros (w' & Hw' & Hpw' & <-).
              apply elem_of_cons in Hw' as [->|Hw']; [by left|].
              right. apply Hkeys. eauto.
        -- rewrite Hdrop. simpl. rewrite Hpw.
           destruct (existsb _ (drop (S n) kvsb)) eqn:He.
           { exfalso. apply Hnin, Hex. done. }
           simpl. by rewrite reverse_snoc, Huniq.
    + apply IH; [lia| |].
      * intros k. rewrite Hdrop. split.
        -- intros Hk. apply Hkeys in Hk as (w' & Hw' & H').
           exists w'. split; [by right|done].
        -- intros (w' & Hw' & Hpw' & <-).
           apply elem_of_cons in Hw' as [->|Hw']; [congruence|].
           apply Hkeys. eauto.
      * rewrite Hdrop. simpl. by rewrite Hpw.
Qed.

(** The first loop of [WriteBatch] never fails, and its
    [uniqEntries], read from the back, are the last writes. *)
Lemma WriteBatch_scan_last_writes (kvsb : batch.KVStoreBatch) :
  exists keys uniq,
    WriteBatch_scan kvsb (batch.Size kvsb) ∅ [] = inr (keys, uniq)
    /\ reverse uniq = last_writes kvsb.
Proof.
  apply WriteBatch_scan_suffix; [done| |].
  - intros k. unfold batch.Size. rewrite drop_all. split.
    + intros H. by apply elem_of_empty in H.
    + intros (w & Hw & _). by apply elem_of_nil in Hw.
  - unfold batch.Size. by rewrite drop_all.
Qed.

Lemma WriteBatch_with_retries (b : BoltDB) (env : nat -> option error)
    (kvsb : batch.KVStoreBatch) :
  IsReady b = true ->
  WriteBatch b env kvsb
  = with_retries b env (apply_writes (last_writes kvsb)).
Proof.
  intros Hready.
  destruct (WriteBatch_scan_last_writes kvsb) as (keys & uniq & Hscan & Hrev).
  unfold WriteBatch. rewrite Hready, Hscan. simpl.
  apply with_retries_ext. intros s.
  by rewrite WriteBatch_tx_reverse, Hrev.
Qed.



(** Of two [Put]s of one key in a batch the later one is read back
    after the commit. *)
Example WriteBatch_v1_v2 :
  last_writes batch_v1_v2
  = [ batch.mkWriteInfo batch.Delete "ns" "j" "";
      batch.mkWriteInfo batch.Put "ns" "k" "v2" ]
  /\ Get (WriteBatch engine0 no_fault batch_v1_v2).1.2 "ns" "k"
     = (Some "v2", None).
Proof. split; vm_compute; reflexivity. Qed.

(** ** The retry and escalation policy *)

Lemma run_with_retries (NotExist : string) (m : mutation) (b : BoltDB)
    (env : nat -> option error) :
  IsReady b = true ->
  run NotExist m b env = with_retries b env (body NotExist m).
Proof.
  intros Hready.
  destruct m; simpl; unfold Put, Delete, Insert, Remove, Purge;
    rewrite ?Hready; simpl; try done.
  by apply WriteBatch_with_retries.
Qed.

(** The first attempt of a [Put] runs out of space, the second one goes
    through: a second attempt is made and the call returns success; and
    when the two later attempts fail otherwise, the call returns an IO
    error after three attempts. *)
Lemma ENOSPC_is_retried :
  let env1 := fun c => match c with 0 => Some ENOSPC | _ => None end in
  let env2 := fun c => match c with 0 => Some ENOSPC | _ => Some (ErrStore 1) end in
  failure (Put_tx "ns" "k" "v") env1 (db engine0) 0 = Some ENOSPC
  /\ Put engine0 env1 "ns" "k" "v"
     = (Returned None, with_db engine0 {[ "ns" := {[ "k" := "v" ]} ]}, 2)
  /\ failure (Put_tx "ns" "k" "v") env2 (db engine0) 0 = Some ENOSPC
  /\ Put engine0 env2 "ns" "k" "v"
     = (Returned (Some (Wrapped ErrIO)), engine0, 3).
Proof. repeat split; vm_compute; reflexivity. Qed.

(** C2, amended.  For every mutating operation ([Put], [Delete],
    [WriteBatch], [Insert], [Remove], [Purge]) on a ready engine: a
    failed attempt, whatever its error, the out-of-space error included,
    is followed by another attempt while fewer than [NumRetries]
    attempts were made, and the first attempt that commits makes the
    call return success; only when all [NumRetries] attempts failed is
    the error of the last one examined: the process is terminated when
    it is the out-of-space error, and a wrapped IO error is returned
    otherwise. *)
Theorem ENOSPC_escalates_after_last_attempt (NotExist : string) (m : mutation)
    (b : BoltDB) (env : nat -> option error) :
  IsReady b = true ->
  (forall i s',
     i < NumRetries (config b) ->
     commits_at (body NotExist m) env (db b) i ->
     body NotExist m (db b) = inr (tt, s') ->
     run NotExist m b env = (Returned None, with_db b s', S i))
  /\ (forall n e,
        NumRetries (config b) = S n ->
        (forall j, j <= n -> failure (body NotExist m) env (db b) j <> None) ->
        failure (body NotExist m) env (db b) n = Some e ->
        run NotExist m b env
        = (if Is e ENOSPC then Terminated else Returned (Some (Wrapped ErrIO)),
           with_db b (db b), S n)).
Proof.
  intros Hready. split.
  - intros i s' Hi Hc Hbody. rewrite run_with_retries by done.
    by apply with_retries_committed.
  - intros n e HN Hfail He. rewrite run_with_retries by done.
    rewrite (with_retries_exhausted b env _ n) by done.
    by rewrite He.
Qed.

Lemma ENOSPC_escalates_after_last_attempt_witness :
  let env1 := fun c => match c with 0 => Some ENOSPC | _ => None end in
  let env3 := fun c => match c with 2 => Some (Wrapped ENOSPC) | _ => Some (ErrStore 1) end in
  Put engine0 env1 "ns" "k" "v"
  = (Returned None, with_db engine0 {[ "ns" := {[ "k" := "v" ]} ]}, 2)
  /\ Put engine0 env3 "ns" "k" "v" = (Terminated, engine0, 3).
Proof.
  intros env1 env3. split.
  - apply (proj1 (ENOSPC_escalates_after_last_attempt ""
                    (MPut "ns" "k" "v") engine0 env1 eq_refl) 1).
    + simpl. lia.
    + split; [reflexivity|]. intros j Hj. assert (j = 0) as -> by lia. done.
    + vm_compute. reflexivity.
  - apply (proj2 (ENOSPC_escalates_after_last_attempt ""
                    (MPut "ns" "k" "v") engine0 env3 eq_refl) 2 (Wrapped ENOSPC)).
    + reflexivity.
    + intros j Hj.
      destruct j as [|[|[|j]]]; [done..|lia].
    + reflexivity.
Defined.

(** ** Get *)

(** On an engine without any bucket, [Get] reports the missing
    namespace with [ErrNotExist], the error kind of a missing key. *)
Lemma Get_missing_bucket_is_NotExist :
  IsReady engine0 = true
  /\ db engine0 !! "ns" = None
  /\ Get engine0 "ns" "k" = (None, Some (Wrapped ErrNotExist))
  /\ Cause (Wrapped ErrNotExist) <> ErrBucketNotExist.
Proof. repeat split; vm_compute; congruence. Qed.

(** C6, amended.  For every [Get(ns, key)] on a ready engine: if the
    namespace does not exist, [Get] fails with the NotExist error kind;
    if it exists but [key] has no entry in it, [Get] fails with the
    NotExist error kind as well; the two absence conditions are
    surfaced as one and the same error kind. *)
Theorem Get_absent_is_NotExist (b : BoltDB) (namespace key : string) :
  IsReady b = true ->
  (db b !! namespace = None ->
   exists err, Get b namespace key = (None, Some err)
               /\ Cause err = ErrNotExist)
  /\ (forall bkt, db b !! namespace = Some bkt -> bkt !! key = None ->
      exists err, Get b namespace key = (None, Some err)
                  /\ Cause err = ErrNotExist).
Proof.
  intros Hready. unfold Get, View, Get_tx, tx_bind, tx_Bucket.
  rewrite Hready. simpl. split.
  - intros ->. by exists (Wrapped ErrNotExist).
  - intros bkt -> ->. by exists (Wrapped ErrNotExist).
Qed.

Lemma Get_absent_is_NotExist_witness :
  (db engine0 !! "ns" = None ->
   exists err, Get engine0 "ns" "k" = (None, Some err)
               /\ Cause err = ErrNotExist)
  /\ (forall bkt, db engine0 !! "ns" = Some bkt -> bkt !! "k" = None ->
      exists err, Get engine0 "ns" "k" = (None, Some err)
                  /\ Cause err = ErrNotExist).
Proof. apply (Get_absent_is_NotExist engine0 "ns" "k"). reflexivity. Defined.

Lemma Get_present (b : BoltDB) (namespace key value : string) (bkt : Bucket) :
  IsReady b = true ->
  db b !! namespace = Some bkt -> bkt !! key = Some value ->
  Get b namespace key = (Some value, None).
Proof.
  intros Hready Hns Hk. unfold Get, View, Get_tx, tx_bind, tx_Bucket.
  by rewrite Hready, Hns, Hk.
Qed.

(** ** Filter *)

Lemma seek_from_after (key : string) (bef aft : list entry) :
  after (seek_from key bef aft) = skip_below key aft.
Proof.
  revert bef. induction aft as [|e aft IH]; intros bef; simpl; [done|].
  by destruct (String.ltb e.1 key).
Qed.

Lemma Filter_loop_nil (fuel : nat) (cond : string -> string -> bool)
    (checkMax : bool) (maxKey : string) (c : Cursor) (fk fv : list string) :
  Filter_loop fuel cond checkMax maxKey c None fk fv = (fk, fv).
Proof. by destruct fuel. Qed.

(** The loop of [Filter] visits the entries behind the cursor up to
    the first key above [maxKey]; as many rounds as there are entries
    behind the cursor are enough. *)
Lemma Filter_loop_closed (cond : string -> string -> bool) (checkMax : bool)
    (maxKey : string) :
  forall aft bef fuel fk fv,
    length aft <= fuel ->
    let sel := List.filter (fun e : entry => cond e.1 e.2)
                 (if checkMax then scan_to maxKey aft else aft) in
    Filter_loop fuel cond checkMax maxKey (mkCursor bef aft) (head aft) fk fv
    = (fk ++ sel.*1, fv ++ sel.*2).
Proof.
  induction aft as [|[k v] aft IH]; intros bef fuel fk fv Hfuel.
  - destruct fuel, checkMax; simpl; by rewrite !app_nil_r.
  - destruct fuel as [|fuel]; [simpl in Hfuel; lia|].
    simpl in Hfuel. cbn [Filter_loop head].
    rewrite bytes_Compare_gt.
    destruct checkMax; cbn [andb scan_to fst].
    + destruct (String.ltb maxKey k) eqn:Hmax.
      { simpl. by rewrite !app_nil_r. }
      unfold Next. cbn [after before].
      destruct aft as [|e' aft'].
      * simpl.
        destruct (cond k v); simpl; rewrite ?Filter_loop_nil;
          by rewrite ?app_nil_r.
      * specialize (IH ((k, v) :: bef) fuel).
        cbn [head] in IH. cbn [List.filter fst snd].
        destruct (cond k v).
        -- rewrite IH by lia. cbn [List.filter]. rewrite !fmap_cons.
           cbn [fst snd]. by rewrite <- !app_assoc.
        -- by rewrite IH by lia.
    + unfold Next. cbn [after before].
      destruct aft as [|e' aft'].
      * simpl.
        destruct (cond k v); simpl; rewrite ?Filter_loop_nil;
          by rewrite ?app_nil_r.
      * specialize (IH ((k, v) :: bef) fuel).
        cbn [head] in IH. cbn [List.filter fst snd].
        destruct (cond k v).
        -- rewrite IH by lia. rewrite !fmap_cons.
           cbn [fst snd]. by rewrite <- !app_assoc.
        -- by rewrite IH by lia.
Qed.

Lemma Filter_tx_visited (bkt : Bucket) (s : Store) (namespace : string)
    (cond : string -> string -> bool) (minKey maxKey : string) :
  s !! namespace = Some bkt ->
  let sel := List.filter (fun e : entry => cond e.1 e.2)
               (visited minKey maxKey (entries bkt)) in
  Filter_tx namespace cond minKey maxKey s = inr ((sel.*1, sel.*2), s).
Proof.
  intros Hns. unfold Filter_tx, tx_bind, tx_Bucket, visited. rewrite Hns.
  assert (Hstart : exists bef,
    (if (0 <? String.length minKey)%nat
     then Seek minKey (bucket_Cursor bkt) else First (bucket_Cursor bkt))
    = (let aft := if (0 <? String.length minKey)%nat
                  then skip_below minKey (entries bkt) else entries bkt in
       (mkCursor bef aft, head aft))).
  { destruct (0 <? String.length minKey)%nat.
    - unfold Seek, bucket_Cursor. simpl.
      pose proof (seek_from_after minKey [] (entries bkt)) as Ha.
      destruct (seek_from minKey [] (entries bkt)) as [bef aft].
      simpl in Ha. subst aft. by exists bef.
    - by exists []. }
  destruct Hstart as [bef ->].
  set (aft := if (0 <? String.length minKey)%nat
              then skip_below minKey (entries bkt) else entries bkt).
  simpl.
  destruct (head aft) as [e|] eqn:Hhead.
  - unfold tx_ret. rewrite <- Hhead.
    rewrite (Filter_loop_closed cond _ maxKey aft bef) by done. done.
  - apply head_None in Hhead. rewrite Hhead.
    by destruct (0 <? String.length maxKey)%nat.
Qed.

(** C7.  For every [Filter(ns, predicate, minKey, maxKey)] on a ready
    engine: if [ns] does not exist the call fails with BucketNotExist;
    otherwise the keys of [ns] are visited in ascending order from the
    first key at or after [minKey] (from the first key when [minKey] is
    absent), the scan stops at the first key strictly greater than
    [maxKey] (when given; a key equal to it is still visited), every
    visited pair that satisfies the predicate is returned in that
    order, and when none does the call fails with NotExist. *)
Theorem Filter_returns_visited_matches (b : BoltDB) (namespace : string)
    (cond : string -> string -> bool) (minKey maxKey : string) :
  IsReady b = true ->
  (db b !! namespace = None ->
   exists err, Filter b namespace cond minKey maxKey = (None, None, Some err)
               /\ Cause err = ErrBucketNotExist)
  /\ (forall bkt, db b !! namespace = Some bkt ->
      StronglySorted entry_lt (entries bkt)
      /\ (forall k v, (k, v) ∈ entries bkt <-> bkt !! k = Some v)
      /\ let sel := List.filter (fun e : entry => cond e.1 e.2)
                      (visited minKey maxKey (entries bkt)) in
         Filter b namespace cond minKey maxKey
         = match sel with
           | [] => (None, None, Some (Wrapped ErrNotExist))
           | _ :: _ => (Some sel.*1, Some sel.*2, None)
           end).
Proof.
  intros Hready. split.
  - intros Hns. exists (Wrapped ErrBucketNotExist). split; [|done].
    unfold Filter, View, Filter_tx, tx_bind, tx_Bucket.
    by rewrite Hready, Hns.
  - intros bkt Hns. split; [apply entries_sorted|].
    split; [apply elem_of_entries|].
    intros sel. unfold Filter, View. rewrite Hready. simpl.
    rewrite (Filter_tx_visited bkt) by done. fold sel.
    by destruct sel.
Qed.

Lemma Filter_returns_visited_matches_witness :
  Filter engine_abc "ns" (fun _ _ => true) "b" "c"
  = (Some ["b"; "c"], Some ["2"; "3"], None)
  /\ Filter engine_abc "ns" (fun _ v => bool_decide (v = "4")) "" "c"
     = (None, None, Some (Wrapped ErrNotExist)).
Proof.
  split.
  - destruct (Filter_returns_visited_matches engine_abc "ns"
                (fun _ _ => true) "b" "c" eq_refl) as [_ H].
    destruct (H _ eq_refl) as (_ & _ & ->). vm_compute. reflexivity.
  - destruct (Filter_returns_visited_matches engine_abc "ns"
                (fun _ v => bool_decide (v = "4")) "" "c" eq_refl) as [_ H].
    destruct (H _ eq_refl) as (_ & _ & ->). vm_compute. reflexivity.
Defined.

(** On sorted entries, the part of a bucket a scan visits is a key
    range. *)
Lemma filter_all (p : entry -> bool) (l : list entry) :
  Forall (fun e => p e = true) l -> List.filter p l = l.
Proof.
  induction 1 as [|e l He _ IH]; simpl; [done|]. by rewrite He, IH.
Qed.

Lemma filter_none (p : entry -> bool) (l : list entry) :
  Forall (fun e => p e = false) l -> List.filter p l = [].
Proof.
  induction 1 as [|e l He _ IH]; simpl; [done|]. by rewrite He, IH.
Qed.

Lemma filter_twice (p q : entry -> bool) (l : list entry) :
  List.filter q (List.filter p l) = List.filter (fun e => p e && q e) l.
Proof.
  induction l as [|e l IH]; simpl; [done|].
  destruct (p e); simpl; [|done]. destruct (q e); by rewrite IH.
Qed.

Lemma skip_below_range (key : string) (l : list entry) :
  StronglySorted entry_lt l ->
  skip_below key l = List.filter (fun e => negb (String.ltb e.1 key)) l.
Proof.
  induction 1 as [|e l Hs IH Hall]; [done|]. simpl.
  destruct (String.ltb e.1 key) eqn:He; simpl; [done|].
  f_equal. symmetry. apply filter_all.
  eapply Forall_impl; [exact Hall|]. intros x Hx. simpl.
  apply negb_true_iff, ltb_false_le.
  apply ltb_false_le in He. trans e.1; [done|by apply ltb_le].
Qed.

Lemma scan_to_range (key : string) (l : list entry) :
  StronglySorted entry_lt l ->
  scan_to key l = List.filter (fun e => negb (String.ltb key e.1)) l.
Proof.
  induction 1 as [|e l Hs IH Hall]; [done|]. simpl.
  destruct (String.ltb key e.1) eqn:He; simpl; [|by rewrite IH].
  symmetry. apply filter_none.
  eapply Forall_impl; [exact Hall|]. intros x Hx. simpl.
  apply negb_false_iff. eapply ltb_le_trans; [exact He|by apply ltb_le].
Qed.

Lemma skip_below_sorted (key : string) (l : list entry) :
  StronglySorted entry_lt l -> StronglySorted entry_lt (skip_below key l).
Proof.
  induction 1 as [|e l Hs IH Hall]; simpl; [constructor|].
  destruct (String.ltb e.1 key); [done|by constructor].
Qed.

(** The pairs a [Filter] visits are the entries of the bucket whose key
    lies between [minKey] and [maxKey], where given, bounds included. *)
Lemma visited_range (b : Bucket) (minKey maxKey : string) :
  visited minKey maxKey (entries b)
  = List.filter
      (fun e => ((String.length minKey =? 0)%nat || negb (String.ltb e.1 minKey))
                && ((String.length maxKey =? 0)%nat || negb (String.ltb maxKey e.1)))
      (entries b).
Proof.
  pose proof (entries_sorted b) as Hs. unfold visited.
  destruct minKey as [|a minKey], maxKey as [|c maxKey]; simpl.
  - symmetry. by apply filter_all, Forall_forall.
  - by rewrite scan_to_range.
  - rewrite skip_below_range by done.
    apply filter_ext. intros e. by rewrite andb_true_r.
  - rewrite scan_to_range by (by apply skip_below_sorted).
    rewrite skip_below_range by done.
    apply filter_twice.
Qed.

(** ** Range *)

Lemma Range_loop_nil (n i : nat) (cur : Cursor) (value : list string) :
  Range_loop n i cur None value
  = match n with 0 => inr value | S _ => inl (Wrapped ErrNotExist) end.
Proof. by destruct n. Qed.

Lemma Range_loop_closed :
  forall n aft bef vs,
    Range_loop n (length vs) (mkCursor bef aft) (head aft)
               (vs ++ replicate n "")
    = if decide (n <= length aft) then inr (vs ++ (take n aft).*2)
      else inl (Wrapped ErrNotExist).
Proof.
  induction n as [|n IH]; intros aft bef vs.
  - cbn [Range_loop]. case_decide; [|lia]. by rewrite take_0.
  - destruct aft as [|[k v] aft]; cbn [Range_loop head].
    { case_decide; [simpl in *; lia|done]. }
    rewrite replicate_S.
    replace (<[length vs := v]> (vs ++ "" :: replicate n ""))
      with ((vs ++ [v]) ++ replicate n "").
    2:{ rewrite insert_app_r_alt by lia.
        rewrite Nat.sub_diag. simpl. by rewrite <- app_assoc. }
    unfold Next. cbn [after before].
    destruct aft as [|e' aft'].
    + rewrite Range_loop_nil. destruct n as [|n].
      * case_decide; [|simpl in *; lia]. simpl. by rewrite app_nil_r.
      * case_decide; [simpl in *; lia|done].
    + replace (S (length vs)) with (length (vs ++ [v]))
        by (rewrite length_app; simpl; lia).
      specialize (IH (e' :: aft') ((k, v) :: bef) (vs ++ [v])).
      cbn [head] in IH. etrans; [exact IH|].
      repeat case_decide; try (simpl in *; lia); [|done].
      rewrite firstn_cons, fmap_cons. simpl. by rewrite <- app_assoc.
Qed.

Lemma Range_tx_closed (bkt : Bucket) (s : Store) (namespace key : string)
    (count : nat) :
  s !! namespace = Some bkt ->
  let rest := List.filter (fun e : entry => negb (String.ltb e.1 key)) (entries bkt) in
  Range_tx namespace key count (replicate count "") s
  = match rest with
    | [] => inl (Wrapped ErrNotExist)
    | _ :: _ =>
        if decide (count <= length rest) then inr ((take count rest).*2, s)
        else inl (Wrapped ErrNotExist)
    end.
Proof.
  intros Hns rest. unfold Range_tx, tx_bind, tx_Bucket, tx_fail, tx_ret.
  rewrite Hns.
  unfold Seek, bucket_Cursor. simpl.
  pose proof (seek_from_after key [] (entries bkt)) as Ha.
  rewrite skip_below_range in Ha by apply entries_sorted. fold rest in Ha.
  destruct (seek_from key [] (entries bkt)) as [bef aft].
  simpl in Ha. subst aft. simpl.
  clearbody rest.
  destruct rest as [|e rest']; [done|].
  cbn [head].
  pose proof (Range_loop_closed count (e :: rest') bef []) as Hloop.
  cbn [head length app] in Hloop. rewrite Hloop. cbn [length].
  by destruct (decide (count <= S (length rest'))).
Qed.

(** With no entry at or after the start key, a [Range] of zero values
    fails, although no fewer than zero entries remain; a slice of no
    values can always be made. *)
Lemma Range_zero_past_the_end :
  IsReady engine_abc = true
  /\ (exists bkt, db engine_abc !! "ns" = Some bkt
        /\ 0 <= length (List.filter (fun e : entry => negb (String.ltb e.1 "z"))
                          (entries bkt)))
  /\ (forall maxLen,
        Range maxLen engine_abc "ns" "z" 0
        = Completed (None, Some (Wrapped ErrNotExist))).
Proof.
  split; [done|]. split.
  - eexists. split; [reflexivity|]. lia.
  - intros maxLen. unfold Range, make.
    replace (0 <=? maxLen)%N with true by (by destruct maxLen).
    vm_compute. reflexivity.
Qed.

Lemma make_granted (maxLen count : N) :
  (count < 2 ^ 63)%N -> (count <= maxLen)%N ->
  make maxLen count = Some (replicate (N.to_nat count) "").
Proof.
  intros H63 Hmax. unfold make.
  rewrite (proj2 (N.ltb_lt _ _) H63), (proj2 (N.leb_le _ _) Hmax). done.
Qed.

Lemma make_refused (maxLen count : N) :
  (2 ^ 63 <= count)%N \/ (maxLen < count)%N -> make maxLen count = None.
Proof.
  intros H. unfold make.
  destruct (N.ltb_spec count (2 ^ 63)) as [H63|H63]; [|done].
  destruct (N.leb_spec count maxLen) as [Hmax|Hmax]; [|done].
  exfalso. destruct H as [H|H].
  - apply N.le_ngt in H. exact (H H63).
  - apply N.lt_nge in H. exact (H Hmax).
Qed.

(** C8, amended.  For every [Range(ns, startKey, count)] on a ready
    engine with [ns] existing: when the slice of [count] values can be
    made ([count] below 2^63 and within what the run time grants),
    then, if at least one entry exists at or after [startKey] and at
    least [count] entries exist there, [Range] returns exactly [count]
    values, those of the [count] consecutive entries starting at the
    smallest key at or after [startKey]; if no entry exists at or after
    [startKey], whatever [count] is, zero included, or fewer than
    [count] entries remain from that point, [Range] fails with the
    NotExist error kind and returns no values.  When the slice cannot
    be made the call panics before it looks at the store and returns
    nothing, no NotExist either. *)
Theorem Range_returns_count_values (maxLen : N) (b : BoltDB)
    (namespace key : string) (count : N) (bkt : Bucket) :
  IsReady b = true ->
  db b !! namespace = Some bkt ->
  let rest := List.filter (fun e : entry => negb (String.ltb e.1 key)) (entries bkt) in
  ((count < 2 ^ 63)%N -> (count <= maxLen)%N ->
   (rest <> [] -> N.to_nat count <= length rest ->
    Range maxLen b namespace key count
    = Completed (Some (take (N.to_nat count) rest).*2, None)
    /\ length (take (N.to_nat count) rest).*2 = N.to_nat count)
   /\ (rest = [] \/ length rest < N.to_nat count ->
       Range maxLen b namespace key count
       = Completed (None, Some (Wrapped ErrNotExist))
       /\ Cause (Wrapped ErrNotExist) = ErrNotExist))
  /\ ((2 ^ 63 <= count)%N \/ (maxLen < count)%N ->
      Range maxLen b namespace key count = Panicked).
Proof.
  intros Hready Hns rest.
  unfold Range, View. rewrite Hready. cbn [negb].
  split.
  - intros H63 Hmax. rewrite (make_granted maxLen count H63 Hmax).
    rewrite (Range_tx_closed bkt) by done. fold rest.
    split.
    + intros Hne Hle. destruct rest as [|e rest']; [done|].
      rewrite decide_True by done. split; [done|].
      rewrite length_fmap, length_take. lia.
    + intros [Hnil|Hlt].
      * by rewrite Hnil.
      * destruct rest as [|e rest']; [done|].
        by rewrite decide_False by lia.
  - intros Hno. by rewrite (make_refused maxLen count Hno).
Qed.

Lemma Range_returns_count_values_witness :
  Range 1000 engine_abc "ns" "b" 2 = Completed (Some ["2"; "3"], None)
  /\ Range 1000 engine_abc "ns" "c" 3
     = Completed (None, Some (Wrapped ErrNotExist))
  /\ Range 1000 engine_abc "ns" "b" 1001 = Panicked.
Proof.
  split; [|split].
  - apply (proj1 (proj1 (Range_returns_count_values 1000 engine_abc "ns" "b" 2 _
                           eq_refl eq_refl) eq_refl ltac:(vm_compute; discriminate))).
    + vm_compute. discriminate.
    + vm_compute. lia.
  - apply (proj2 (proj1 (Range_returns_count_values 1000 engine_abc "ns" "c" 3 _
                           eq_refl eq_refl) eq_refl ltac:(vm_compute; discriminate))).
    right. vm_compute. lia.
  - apply (proj2 (Range_returns_count_values 1000 engine_abc "ns" "b" 1001 _
                    eq_refl eq_refl)).
    right. reflexivity.
Defined.

(** ** Cursor positions, in terms of the bucket *)

(** [Seek] on a fresh cursor finds the least key at or after [key]; the
    entry in front of that position has the greatest key below [key];
    and when the key found is [key] itself, the entry behind it has the
    least key above [key]. *)
Lemma Seek_position (bkt : Bucket) (key : string) :
  exists lo hi,
    entries bkt = lo ++ hi
    /\ Seek key (bucket_Cursor bkt) = (mkCursor (reverse lo) hi, head hi)
    /\ Forall (fun e => String.ltb e.1 key = true) lo
    /\ least_in bkt (String.le key) (head hi)
    /\ greatest_in bkt (fun k => String.ltb k key = true) (last lo)
    /\ (forall v rest, hi = (key, v) :: rest ->
        least_in bkt (fun k => String.ltb key k = true) (head rest)).
Proof.
  destruct (Seek_entries bkt key) as (lo & hi & He & Hs & Hlo & Hhi).
  exists lo, hi. repeat split; try done.
  - refine (split_least bkt (String.le key) lo hi He _ Hhi).
    eapply Forall_impl; [exact Hlo|]. intros e H. by apply ltb_not_le.
  - refine (split_greatest bkt (fun k => String.ltb k key = true) lo hi He Hlo _).
    eapply Forall_impl; [exact Hhi|]. intros e H.
    apply ltb_false_le in H. by rewrite H.
  - intros v rest ->.
    pose proof (entries_sorted bkt) as Hsort. rewrite He in Hsort.
    apply (split_least bkt (fun k => String.ltb key k = true)
             (lo ++ [(key, v)]) rest).
    + by rewrite <- app_assoc.
    + apply Forall_app. split.
      * eapply Forall_impl; [exact Hlo|]. intros e H.
        apply ltb_le, ltb_false_le in H. by rewrite H.
      * constructor; [|constructor]. simpl. by rewrite ltb_irrefl.
    + apply StronglySorted_app_1_r, StronglySorted_inv in Hsort as [_ Hall].
      exact Hall.
Qed.

(** ** Updating a bucket of the store *)

Lemma alter_bucket (s : Store) (name : string) (bkt : Bucket)
    (f : Bucket -> Bucket) :
  s !! name = Some bkt -> alter f name s = <[name := f bkt]> s.
Proof.
  intros Hs. apply map_eq. intros i.
  destruct (decide (i = name)) as [->|Hne].
  - by rewrite lookup_alter_eq, lookup_insert_eq, Hs.
  - by rewrite lookup_alter_ne, lookup_insert_ne.
Qed.

Lemma bucket_Put_insert (s : Store) (name key value : string) (bkt : Bucket) :
  s !! name = Some bkt ->
  bucket_Put name key value s = inr (tt, <[name := <[key := value]> bkt]> s).
Proof. intros Hs. unfold bucket_Put. by rewrite (alter_bucket s name bkt). Qed.

Lemma bucket_Delete_insert (s : Store) (name key : string) (bkt : Bucket) :
  s !! name = Some bkt ->
  bucket_Delete name key s = inr (tt, <[name := delete key bkt]> s).
Proof. intros Hs. unfold bucket_Delete. by rewrite (alter_bucket s name bkt). Qed.

Lemma failure_of_env (fn : Tx unit) (env : nat -> option error) (s s' : Store)
    (c : nat) :
  fn s = inr (tt, s') -> failure fn env s c = env c.
Proof. intros Hfn. unfold failure, Update. rewrite Hfn. by destruct (env c). Qed.

Lemma with_retries_first_commit (b : BoltDB) (env : nat -> option error)
    (fn : Tx unit) (i : nat) (s' : Store) :
  i < NumRetries (config b) ->
  first_commit env i ->
  fn (db b) = inr (tt, s') ->
  with_retries b env fn = (Returned None, with_db b s', S i).
Proof.
  intros Hi [Hok Hfail] Hfn. apply with_retries_committed; [done| |done].
  split.
  - by rewrite (failure_of_env fn env (db b) s').
  - intros j Hj. rewrite (failure_of_env fn env (db b) s') by done.
    by apply Hfail.
Qed.

(** ** Boundary keys

    Boundary keys are ordered like the domain values they encode. *)

Lemma Uint64ToBytesBigEndian_big_endian (v : Z) :
  Uint64ToBytesBigEndian v = big_endian 8 v.
Proof. reflexivity. Qed.

Lemma byte_of_compare (x y : Z) :
  Ascii.compare (byte_of x) (byte_of y) = (x mod 256 ?= y mod 256)%Z.
Proof.
  unfold Ascii.compare, byte_of.
  change 255%Z with (Z.ones 8).
  rewrite !Z.land_ones by lia. change (2 ^ 8)%Z with 256%Z.
  pose proof (Z.mod_pos_bound x 256 ltac:(lia)).
  pose proof (Z.mod_pos_bound y 256 ltac:(lia)).
  rewrite !N_ascii_embedding by lia.
  by rewrite <- Z2N.inj_compare by lia.
Qed.

Lemma big_endian_compare (n : nat) (a b : Z) :
  String.compare (big_endian n a) (big_endian n b)
  = (a mod 256 ^ Z.of_nat n ?= b mod 256 ^ Z.of_nat n)%Z.
Proof.
  induction n as [|n IH]; [simpl; by rewrite !Z.mod_1_r|].
  cbn [big_endian String.compare].
  rewrite byte_of_compare, IH.
  rewrite !Z.shiftr_div_pow2 by lia.
  replace (2 ^ (8 * Z.of_nat n))%Z with (256 ^ Z.of_nat n)%Z
    by (rewrite Z.pow_mul_r by lia; done).
  replace (256 ^ Z.of_nat (S n))%Z with (256 ^ Z.of_nat n * 256)%Z
    by (rewrite Nat2Z.inj_succ, Z.pow_succ_r by lia; lia).
  assert (HP : (0 < 256 ^ Z.of_nat n)%Z) by (apply Z.pow_pos_nonneg; lia).
  rewrite !Z.rem_mul_r by lia.
  set (P := (256 ^ Z.of_nat n)%Z) in *.
  pose proof (Z.mod_pos_bound a P HP). pose proof (Z.mod_pos_bound b P HP).
  pose proof (Z.mod_pos_bound (a / P) 256 ltac:(lia)).
  pose proof (Z.mod_pos_bound (b / P) 256 ltac:(lia)).
  set (ha := ((a / P) mod 256)%Z) in *. set (hb := ((b / P) mod 256)%Z) in *.
  set (la := (a mod P)%Z) in *. set (lb := (b mod P)%Z) in *.
  destruct (Z.compare_spec ha hb) as [Heq|Hlt|Hgt].
  - rewrite Heq. destruct (Z.compare_spec la lb); symmetry.
    + apply Z.compare_eq_iff. lia.
    + apply Z.compare_lt_iff. lia.
    + apply Z.compare_gt_iff. lia.
  - symmetry. apply Z.compare_lt_iff. nia.
  - symmetry. apply Z.compare_gt_iff. nia.
Qed.

Lemma Uint64ToBytesBigEndian_compare (a b : Z) :
  (0 <= a < 2 ^ 64)%Z -> (0 <= b < 2 ^ 64)%Z ->
  String.compare (Uint64ToBytesBigEndian a) (Uint64ToBytesBigEndian b)
  = (a ?= b)%Z.
Proof.
  intros Ha Hb. rewrite !Uint64ToBytesBigEndian_big_endian, big_endian_compare.
  change (256 ^ Z.of_nat 8)%Z with (2 ^ 64)%Z.
  by rewrite !Z.mod_small by done.
Qed.

Lemma Uint64ToBytesBigEndian_le (a b : Z) :
  (0 <= a < 2 ^ 64)%Z -> (0 <= b < 2 ^ 64)%Z ->
  String.le (Uint64ToBytesBigEndian a) (Uint64ToBytesBigEndian b) <-> (a <= b)%Z.
Proof.
  intros Ha Hb. unfold String.le, String.leb.
  rewrite Uint64ToBytesBigEndian_compare by done.
  destruct (Z.compare_spec a b); simpl; intuition lia.
Qed.

(** ** Range index: Insert *)

Lemma Uint64ToBytesBigEndian_not_empty (v : Z) : Uint64ToBytesBigEndian v <> "".
Proof. done. Qed.

Lemma Insert_tx_closed (s : Store) (name : string) (key : Z) (value : string)
    (bkt : Bucket) (kv nxt : option entry) :
  s !! name = Some bkt ->
  least_in bkt (String.le (anchor key)) kv ->
  least_in bkt (fun k => String.ltb (anchor key) k = true) nxt ->
  Insert_tx name key value s
  = inr (tt, <[name := Insert_bucket (anchor key) value kv nxt bkt]> s).
Proof.
  intros Hs Hkv Hnxt.
  unfold Insert_tx, tx_bind, tx_Bucket. rewrite Hs. fold (anchor key).
  destruct (Seek_position bkt (anchor key))
    as (lo & hi & He & -> & Hlo & Hleast & _ & Hnext).
  rewrite (least_in_unique _ _ _ _ Hkv Hleast).
  destruct hi as [|[k v] rest]; simpl.
  - unfold tx_ret. by rewrite (alter_bucket s name bkt).
  - unfold bytes_Equal. simpl.
    destruct (decide (k = anchor key)) as [->|Hne].
    + rewrite bool_decide_eq_true_2 by done. simpl.
      rewrite (least_in_unique _ _ _ _ Hnxt (Hnext v rest eq_refl)).
      unfold Next. simpl.
      destruct rest as [|[k' v'] rest']; simpl.
      * unfold tx_ret. by rewrite insert_id.
      * unfold bucket_Put. by rewrite (alter_bucket s name bkt).
    + rewrite bool_decide_eq_false_2 by done. simpl.
      unfold bucket_Put.
      rewrite (alter_bucket s name bkt) by done.
      rewrite (alter_bucket _ name (<[anchor key := v]> bkt))
        by apply lookup_insert_eq.
      by rewrite insert_insert_eq.
Qed.

(** C3.  For every [Insert(name, key, value)] on an existing index
    namespace, with the anchor [key - 1]: let [(k, v)] be the smallest
    stored boundary at or after the anchor; if [k] is not the anchor,
    [Insert] writes the new boundary (anchor, [v]) and then, if there
    is such a [k], overwrites ([k], [value]); if [k] is the anchor,
    [Insert] writes no boundary at the anchor and overwrites the next
    boundary after the anchor with [value] when there is one; if no
    boundary exists at or after the anchor, only the anchor boundary is
    written.  The call returns success with the first attempt that
    commits. *)
Theorem Insert_splits_at_anchor (b : BoltDB) (env : nat -> option error)
    (name : string) (key : Z) (value : string) (bkt : Bucket)
    (kv nxt : option entry) (i : nat) :
  IsReady b = true ->
  db b !! name = Some bkt ->
  i < NumRetries (config b) ->
  first_commit env i ->
  least_in bkt (String.le (anchor key)) kv ->
  least_in bkt (fun k => String.ltb (anchor key) k = true) nxt ->
  Insert b env name key value
  = (Returned None,
     with_db b (<[name := Insert_bucket (anchor key) value kv nxt bkt]> (db b)),
     S i).
Proof.
  intros Hready Hs Hi Henv Hkv Hnxt. unfold Insert. rewrite Hready. simpl.
  apply with_retries_first_commit; [done..|].
  by apply Insert_tx_closed.
Qed.

Lemma least_in_compute (bkt : Bucket) (P : string -> Prop) (kv : option entry) :
  match kv with
  | Some (k, v) =>
      bkt !! k = Some v /\ P k
      /\ Forall (fun e : entry => P e.1 -> String.le k e.1) (map_to_list bkt)
  | None => Forall (fun e : entry => ~ P e.1) (map_to_list bkt)
  end ->
  least_in bkt P kv.
Proof.
  destruct kv as [[k v]|]; simpl.
  - intros (Hk & HP & Hall). repeat split; try done.
    intros k' [v' Hk'] HP'. rewrite Forall_forall in Hall.
    apply (Hall (k', v')); [|done]. by apply elem_of_map_to_list.
  - intros Hall k' [v' Hk'] HP'. rewrite Forall_forall in Hall.
    apply (Hall (k', v')); [|done]. by apply elem_of_map_to_list.
Qed.

Lemma Insert_splits_at_anchor_witness :
  Insert engine_idx first_fails "idx" 71 "c"
  = (Returned None,
     with_db engine_idx
       {[ "idx" := {[ Uint64ToBytesBigEndian 50 := "a";
                      Uint64ToBytesBigEndian 70 := "b";
                      Uint64ToBytesBigEndian 100 := "c" ]} ]},
     2).
Proof.
  rewrite (Insert_splits_at_anchor engine_idx first_fails "idx" 71 "c"
             index_50_100
             (Some (Uint64ToBytesBigEndian 100, "b"))
             (Some (Uint64ToBytesBigEndian 100, "b")) 1).
  - vm_compute. reflexivity.
  - reflexivity.
  - reflexivity.
  - simpl. lia.
  - split; [reflexivity|]. intros j Hj. assert (j = 0) as -> by lia. done.
  - apply least_in_compute. compute_done.
  - apply least_in_compute. compute_done.
Defined.

(** ** Range index: Remove *)

Lemma least_ge_hit (bkt : Bucket) (key k v : string) :
  least_in bkt (String.le key) (Some (k, v)) ->
  bkt !! key = if decide (k = key) then Some v else None.
Proof.
  intros (Hk & Hle & Hmin). destruct (decide (k = key)) as [->|Hne]; [done|].
  destruct (bkt !! key) as [v'|] eqn:Hkey; [|done].
  exfalso. apply Hne. apply (anti_symm String.le); [|done].
  apply Hmin; [by rewrite Hkey|done].
Qed.

Lemma least_ge_miss (bkt : Bucket) (key : string) :
  least_in bkt (String.le key) None -> bkt !! key = None.
Proof.
  intros Hnone. destruct (bkt !! key) as [v'|] eqn:Hkey; [|done].
  exfalso. apply (Hnone key); [by rewrite Hkey|done].
Qed.

Lemma Remove_tx_closed (s : Store) (name : string) (key : Z) (bkt : Bucket)
    (nxt : option entry) :
  s !! name = Some bkt ->
  least_in bkt (fun k => String.ltb (anchor key) k = true) nxt ->
  Remove_tx name key s
  = inr (tt, <[name := Remove_bucket (anchor key) nxt bkt]> s).
Proof.
  intros Hs Hnxt.
  unfold Remove_tx, tx_bind, tx_Bucket. rewrite Hs. fold (anchor key).
  destruct (Seek_position bkt (anchor key))
    as (lo & hi & He & -> & Hlo & Hleast & _ & Hnext).
  unfold Remove_bucket.
  destruct hi as [|[k v] rest]; simpl.
  - simpl in Hleast. rewrite (least_ge_miss _ _ Hleast).
    unfold tx_ret. by rewrite insert_id.
  - simpl in Hleast. rewrite (least_ge_hit _ _ _ _ Hleast).
    unfold bytes_Equal. simpl.
    destruct (decide (k = anchor key)) as [->|Hne].
    + rewrite bool_decide_eq_true_2 by done. simpl.
      rewrite (least_in_unique _ _ _ _ Hnxt (Hnext v rest eq_refl)).
      unfold Next. simpl. unfold bucket_Delete.
      rewrite (alter_bucket s name bkt) by done.
      destruct rest as [|[k' v'] rest']; simpl; [done|].
      unfold bucket_Put.
      rewrite (alter_bucket _ name (delete (anchor key) bkt))
        by apply lookup_insert_eq.
      by rewrite insert_insert_eq.
    + rewrite bool_decide_eq_false_2 by done. simpl.
      unfold tx_ret. by rewrite insert_id.
Qed.

Lemma with_db_same (b : BoltDB) : with_db b (db b) = b.
Proof. by destruct b. Qed.

(** C4.  For every [Remove(name, key)] on an existing index namespace:
    if a boundary is stored exactly at the anchor [key - 1] with value
    [v], [Remove] deletes that boundary and writes [v] onto the next
    remaining boundary after the anchor, when there is one; if no
    boundary is stored exactly at the anchor, [Remove] changes nothing
    and returns success. *)
Theorem Remove_carries_value_forward (b : BoltDB) (env : nat -> option error)
    (name : string) (key : Z) (bkt : Bucket) (nxt : option entry) (i : nat) :
  IsReady b = true ->
  db b !! name = Some bkt ->
  i < NumRetries (config b) ->
  first_commit env i ->
  least_in bkt (fun k => String.ltb (anchor key) k = true) nxt ->
  Remove b env name key
  = (Returned None,
     with_db b (<[name := Remove_bucket (anchor key) nxt bkt]> (db b)),
     S i)
  /\ (bkt !! anchor key = None ->
      Remove b env name key = (Returned None, b, S i)).
Proof.
  intros Hready Hs Hi Henv Hnxt.
  assert (Hrun : Remove b env name key
    = (Returned None,
       with_db b (<[name := Remove_bucket (anchor key) nxt bkt]> (db b)),
       S i)).
  { unfold Remove. rewrite Hready. simpl.
    apply with_retries_first_commit; [done..|].
    by apply Remove_tx_closed. }
  split; [done|]. intros Hnone. rewrite Hrun.
  unfold Remove_bucket. rewrite Hnone, insert_id by done.
  by rewrite with_db_same.
Qed.

Lemma Remove_carries_value_forward_witness :
  Remove engine_idx first_fails "idx" 51
  = (Returned None,
     with_db engine_idx {[ "idx" := {[ Uint64ToBytesBigEndian 100 := "a" ]} ]},
     2)
  /\ (index_50_100 !! anchor 51 = None ->
      Remove engine_idx first_fails "idx" 51 = (Returned None, engine_idx, 2)).
Proof.
  replace (with_db engine_idx
             {[ "idx" := {[ Uint64ToBytesBigEndian 100 := "a" ]} ]})
    with (with_db engine_idx
            (<[ "idx" := Remove_bucket (anchor 51)
                           (Some (Uint64ToBytesBigEndian 100, "b"))
                           index_50_100 ]> (db engine_idx)))
    by (vm_compute; reflexivity).
  apply (Remove_carries_value_forward engine_idx first_fails "idx" 51
           index_50_100 (Some (Uint64ToBytesBigEndian 100, "b")) 1).
  - reflexivity.
  - reflexivity.
  - simpl. lia.
  - split; [reflexivity|]. intros j Hj. assert (j = 0) as -> by lia. done.
  - apply least_in_compute. compute_done.
Defined.

(** ** Range index: Purge *)

Lemma lookup_delete_entries (l : list entry) (m : Bucket) (k : string) :
  delete_entries l m !! k = if decide (k ∈ l.*1) then None else m !! k.
Proof.
  revert m. induction l as [|e l IH]; intros m.
  - case_decide as Hin; [|done]. by apply elem_of_nil in Hin.
  - unfold delete_entries in *. cbn [foldl]. rewrite IH, fmap_cons.
    destruct (decide (k ∈ l.*1)) as [Hin|Hnin];
      destruct (decide (k ∈ e.1 :: l.*1)) as [Hin'|Hnin']; try done.
    + exfalso. apply Hnin'. by right.
    + apply elem_of_cons in Hin' as [->|Hin']; [|done].
      apply lookup_delete_eq.
    + apply lookup_delete_ne. intros Heq. apply Hnin'. rewrite <- Heq. left.
Qed.

(** The loop of [Purge] deletes every entry in front of the cursor;
    as many rounds as there are such entries are enough. *)
Lemma Purge_loop_closed (name : string) :
  forall bef aft m s fuel,
    length bef <= fuel ->
    s !! name = Some m ->
    Purge_loop fuel name (mkCursor bef aft) s
    = inr (tt, <[name := delete_entries bef m]> s).
Proof.
  induction bef as [|[k v] bef IH]; intros aft m s fuel Hfuel Hs.
  - destruct fuel; simpl; unfold tx_ret; by rewrite insert_id.
  - destruct fuel as [|fuel]; [simpl in Hfuel; lia|]. simpl in *.
    unfold tx_bind, bucket_Delete.
    rewrite (alter_bucket s name m) by done.
    rewrite (IH _ (delete k m)); [|lia|apply lookup_insert_eq].
    by rewrite insert_insert_eq.
Qed.

(** Deleting the entries in front of the position [Seek] found leaves
    the entries at or after it. *)
Lemma delete_below (bkt : Bucket) (key : string) (lo hi : list entry) :
  entries bkt = lo ++ hi ->
  Forall (fun e => String.ltb e.1 key = true) lo ->
  Forall (fun e => String.le key e.1) hi ->
  delete_entries (reverse lo) bkt
  = filter (fun e : entry => String.le key e.1) bkt.
Proof.
  intros He Hlo Hhi. apply map_eq. intros k.
  rewrite lookup_delete_entries.
  rewrite Forall_forall in Hlo. rewrite Forall_forall in Hhi.
  destruct (decide (k ∈ (reverse lo).*1)) as [Hin|Hnin].
  - symmetry. apply map_lookup_filter_None. right. intros v Hv. simpl.
    apply list_elem_of_fmap in Hin as ([k' v'] & -> & Hin).
    rewrite elem_of_reverse in Hin. apply Hlo in Hin. simpl in *.
    by apply ltb_not_le.
  - destruct (bkt !! k) as [v|] eqn:Hk; symmetry.
    + apply map_lookup_filter_Some. split; [done|]. simpl.
      apply elem_of_entries in Hk. rewrite He in Hk.
      apply elem_of_app in Hk as [Hk|Hk]; [|by apply (Hhi (k, v))].
      exfalso. apply Hnin. apply list_elem_of_fmap.
      exists (k, v). split; [done|]. by rewrite elem_of_reverse.
    + apply map_lookup_filter_None. by left.
Qed.

Lemma Purge_tx_closed (NotExist : string) (s : Store) (name : string)
    (key : Z) (bkt : Bucket) (kv : option entry) :
  s !! name = Some bkt ->
  least_in bkt (String.le (Uint64ToBytesBigEndian key)) kv ->
  Purge_tx NotExist name key s
  = inr (tt, <[name := Purge_bucket NotExist kv bkt]> s).
Proof.
  intros Hs Hkv.
  unfold Purge_tx, tx_bind, tx_Bucket. rewrite Hs.
  destruct (Seek_entries bkt (Uint64ToBytesBigEndian key))
    as (lo & hi & He & -> & Hlo & Hhi).
  cbn [after before].
  rewrite (Purge_loop_closed name (reverse lo) hi bkt s) by done.
  rewrite (delete_below bkt (Uint64ToBytesBigEndian key) lo hi) by done.
  assert (Hhead : kv = head hi).
  { apply (least_in_unique bkt (String.le (Uint64ToBytesBigEndian key))); [done|].
    refine (split_least bkt _ lo hi He _ Hhi).
    eapply Forall_impl; [exact Hlo|]. intros e H. by apply ltb_not_le. }
  rewrite <- Hhead. unfold Purge_bucket.
  destruct kv as [[nk v]|]; simpl.
  - unfold bucket_Put. rewrite (alter_bucket _ name _ _ (lookup_insert_eq _ _ _)).
    rewrite insert_insert_eq. do 2 f_equal. f_equal. f_equal.
    apply map_filter_ext. intros k x Hk. simpl.
    destruct Hkv as (Hnk & Hle & Hmin). split.
    + intros Hkey. apply Hmin; [by rewrite Hk|done].
    + intros Hnkk. by trans nk.
  - unfold tx_ret. do 3 f_equal.
    apply map_empty_filter_2. intros k x Hk. simpl.
    apply Hkv. by rewrite Hk.
Qed.

(** C5.  For every [Purge(name, key)] on an existing index namespace:
    every stored boundary whose key is strictly before the smallest
    boundary at or after [key] is deleted, and when a boundary at or
    after [key] exists, that first remaining boundary is overwritten
    with the not-exist marker; the boundaries after it keep their keys
    and values.  When no boundary exists at or after [key], every
    boundary is deleted. *)
Theorem Purge_deletes_below_and_marks (NotExist : string) (b : BoltDB)
    (env : nat -> option error) (name : string) (key : Z) (bkt : Bucket)
    (kv : option entry) (i : nat) :
  IsReady b = true ->
  db b !! name = Some bkt ->
  i < NumRetries (config b) ->
  first_commit env i ->
  least_in bkt (String.le (Uint64ToBytesBigEndian key)) kv ->
  Purge NotExist b env name key
  = (Returned None,
     with_db b (<[name := Purge_bucket NotExist kv bkt]> (db b)),
     S i)
  /\ (forall nk v, kv = Some (nk, v) ->
      (forall k, String.ltb k nk = true ->
                 Purge_bucket NotExist kv bkt !! k = None)
      /\ Purge_bucket NotExist kv bkt !! nk = Some NotExist
      /\ (forall k, String.ltb nk k = true ->
                    Purge_bucket NotExist kv bkt !! k = bkt !! k)).
Proof.
  intros Hready Hs Hi Henv Hkv. split.
  - unfold Purge. rewrite Hready. simpl.
    apply with_retries_first_commit; [done..|].
    by apply Purge_tx_closed.
  - intros nk v ->. unfold Purge_bucket. repeat split.
    + intros k Hk. rewrite lookup_insert_ne.
      2:{ intros ->. by rewrite ltb_irrefl in Hk. }
      apply map_lookup_filter_None. right. intros x _. simpl.
      by apply ltb_not_le.
    + apply lookup_insert_eq.
    + intros k Hk. rewrite lookup_insert_ne.
      2:{ intros ->. by rewrite ltb_irrefl in Hk. }
      destruct (bkt !! k) as [x|] eqn:Hx.
      * apply map_lookup_filter_Some. split; [done|]. by apply ltb_le.
      * apply map_lookup_filter_None. by left.
Qed.

Lemma Purge_deletes_below_and_marks_witness :
  Purge "gone" engine_idx first_fails "idx" 60
  = (Returned None,
     with_db engine_idx {[ "idx" := {[ Uint64ToBytesBigEndian 100 := "gone" ]} ]},
     2).
Proof.
  replace (with_db engine_idx
             {[ "idx" := {[ Uint64ToBytesBigEndian 100 := "gone" ]} ]})
    with (with_db engine_idx
            (<[ "idx" := Purge_bucket "gone"
                           (Some (Uint64ToBytesBigEndian 100, "b"))
                           index_50_100 ]> (db engine_idx)))
    by (vm_compute; reflexivity).
  apply (Purge_deletes_below_and_marks "gone" engine_idx first_fails "idx" 60
           index_50_100 (Some (Uint64ToBytesBigEndian 100, "b")) 1).
  - reflexivity.
  - reflexivity.
  - simpl. lia.
  - split; [reflexivity|]. intros j Hj. assert (j = 0) as -> by lia. done.
  - apply least_in_compute. compute_done.
Defined.

(** ** Range index: SeekNext and SeekPrev *)

Lemma SeekNext_closed (b : BoltDB) (name : string) (key : Z) (bkt : Bucket)
    (kv : option entry) :
  IsReady b = true ->
  db b !! name = Some bkt ->
  least_in bkt (String.le (Uint64ToBytesBigEndian key)) kv ->
  SeekNext b name key = (Some (default "" (snd <$> kv)), None).
Proof.
  intros Hready Hs Hkv.
  unfold SeekNext, View, SeekNext_tx, tx_bind, tx_Bucket.
  rewrite Hready, Hs. cbn [negb].
  destruct (Seek_position bkt (Uint64ToBytesBigEndian key))
    as (lo & hi & He & -> & _ & Hleast & _).
  by rewrite (least_in_unique _ _ _ _ Hkv Hleast).
Qed.

Lemma SeekPrev_closed (b : BoltDB) (name : string) (key : Z) (bkt : Bucket)
    (kv : option entry) :
  IsReady b = true ->
  db b !! name = Some bkt ->
  greatest_in bkt (fun k => String.ltb k (Uint64ToBytesBigEndian key) = true) kv ->
  SeekPrev b name key = (Some (default "" (snd <$> kv)), None).
Proof.
  intros Hready Hs Hkv.
  unfold SeekPrev, View, SeekPrev_tx, tx_bind, tx_Bucket.
  rewrite Hready, Hs. cbn [negb].
  destruct (Seek_position bkt (Uint64ToBytesBigEndian key))
    as (lo & hi & He & -> & _ & _ & Hgreatest & _).
  rewrite (greatest_in_unique _ _ _ _ Hkv Hgreatest).
  rewrite <- head_reverse. unfold Prev. simpl.
  by destruct (reverse lo).
Qed.

(** C9.  For every [SeekNext(name, key)] on an existing index namespace
    where no boundary at or after [key] is stored, and for every
    [SeekPrev(name, key)] where no boundary strictly precedes the seek
    position, the call returns a successful result whose value is the
    empty byte slice, not a NotExist error; a boundary that stores the
    empty value gives the very same result, so a caller cannot tell the
    two apart. *)
Theorem Seek_no_boundary_is_empty_value (b : BoltDB) (name : string) (key : Z)
    (bkt : Bucket) :
  IsReady b = true ->
  db b !! name = Some bkt ->
  (least_in bkt (String.le (Uint64ToBytesBigEndian key)) None ->
   SeekNext b name key = (Some "", None))
  /\ (greatest_in bkt (fun k => String.ltb k (Uint64ToBytesBigEndian key) = true) None ->
      SeekPrev b name key = (Some "", None))
  /\ (forall k, least_in bkt (String.le (Uint64ToBytesBigEndian key)) (Some (k, "")) ->
      SeekNext b name key = (Some "", None))
  /\ (forall k, greatest_in bkt (fun k => String.ltb k (Uint64ToBytesBigEndian key) = true)
                  (Some (k, "")) ->
      SeekPrev b name key = (Some "", None)).
Proof.
  intros Hready Hs. repeat split.
  - intros H. by rewrite (SeekNext_closed b name key bkt None).
  - intros H. by rewrite (SeekPrev_closed b name key bkt None).
  - intros k H. by rewrite (SeekNext_closed b name key bkt (Some (k, ""))).
  - intros k H. by rewrite (SeekPrev_closed b name key bkt (Some (k, ""))).
Qed.

Lemma greatest_in_compute (bkt : Bucket) (P : string -> Prop) (kv : option entry) :
  match kv with
  | Some (k, v) =>
      bkt !! k = Some v /\ P k
      /\ Forall (fun e : entry => P e.1 -> String.le e.1 k) (map_to_list bkt)
  | None => Forall (fun e : entry => ~ P e.1) (map_to_list bkt)
  end ->
  greatest_in bkt P kv.
Proof.
  destruct kv as [[k v]|]; simpl.
  - intros (Hk & HP & Hall). repeat split; try done.
    intros k' [v' Hk'] HP'. rewrite Forall_forall in Hall.
    apply (Hall (k', v')); [|done]. by apply elem_of_map_to_list.
  - intros Hall k' [v' Hk'] HP'. rewrite Forall_forall in Hall.
    apply (Hall (k', v')); [|done]. by apply elem_of_map_to_list.
Qed.

Lemma Seek_no_boundary_is_empty_value_witness :
  SeekNext engine_idx "idx" 101 = (Some "", None)
  /\ SeekPrev engine_idx "idx" 50 = (Some "", None)
  /\ SeekNext engine_idx_empty "idx" 50 = (Some "", None)
  /\ SeekPrev engine_idx_empty "idx" 51 = (Some "", None).
Proof.
  destruct (Seek_no_boundary_is_empty_value engine_idx "idx" 101 _
              eq_refl eq_refl) as (H1 & _).
  destruct (Seek_no_boundary_is_empty_value engine_idx "idx" 50 _
              eq_refl eq_refl) as (_ & H2 & _).
  destruct (Seek_no_boundary_is_empty_value engine_idx_empty "idx" 50 _
              eq_refl eq_refl) as (_ & _ & H3 & _).
  destruct (Seek_no_boundary_is_empty_value engine_idx_empty "idx" 51 _
              eq_refl eq_refl) as (_ & _ & _ & H4).
  split; [|split; [|split]].
  - apply H1. apply least_in_compute. compute_done.
  - apply H2. apply greatest_in_compute. compute_done.
  - apply (H3 (Uint64ToBytesBigEndian 50)).
    apply least_in_compute. compute_done.
  - apply (H4 (Uint64ToBytesBigEndian 50)).
    apply greatest_in_compute. compute_done.
Defined.

(** ** The anchor of key 0 *)

Lemma ascii_le_255 (a : ascii) : Ascii.compare a "255" <> Gt.
Proof.
  unfold Ascii.compare. intros H. apply N.compare_gt_iff in H.
  pose proof (N_ascii_bounded a) as Hb.
  change (N_of_ascii "255") with 255%N in H. lia.
Qed.

Lemma le_all_255 (k m : string) :
  String.length k = String.length m ->
  (forall i c, String.get i m = Some c -> c = "255"%char) ->
  String.le k m.
Proof.
  unfold String.le, String.leb.
  revert m. induction k as [|a k IH]; intros [|c m] Hlen Hm; simpl in *;
    try done.
  assert (c = "255"%char) as -> by (by apply (Hm 0)).
  pose proof (ascii_le_255 a) as Ha.
  destruct (Ascii.compare a "255") eqn:Hc; [|done..].
  apply IH; [lia|]. intros i c Hi. by apply (Hm (S i)).
Qed.

Lemma max_key_greatest (k : string) :
  String.length k = 8 -> String.le k max_key.
Proof.
  intros Hlen. apply le_all_255; [done|].
  intros i c Hi.
  do 8 (destruct i as [|i]; [by injection Hi as <-|]). done.
Qed.

(** C10.  [Insert] and [Remove] compute the anchor as [key - 1] in
    unsigned 64-bit arithmetic, so for [key = 0] the anchor wraps
    around to 2^64 - 1, whose encoding is the greatest 8-byte key:
    [Insert(name, 0, value)] does not fail or reject the input, it
    works on the boundary at that key, and [Remove(name, 0)] looks for
    a boundary there. *)
Theorem anchor_of_zero_wraps (b : BoltDB) (env : nat -> option error)
    (name value : string) (bkt : Bucket) (kv nxt : option entry) (i : nat) :
  IsReady b = true ->
  db b !! name = Some bkt ->
  i < NumRetries (config b) ->
  first_commit env i ->
  least_in bkt (String.le max_key) kv ->
  least_in bkt (fun k => String.ltb max_key k = true) nxt ->
  wrap64 (0 - 1) = (2 ^ 64 - 1)%Z
  /\ anchor 0 = Uint64ToBytesBigEndian (2 ^ 64 - 1)
  /\ anchor 0 = max_key
  /\ (forall k, String.length k = 8 -> String.le k max_key)
  /\ Insert b env name 0 value
     = (Returned None,
        with_db b (<[name := Insert_bucket max_key value kv nxt bkt]> (db b)),
        S i)
  /\ Remove b env name 0
     = (Returned None,
        with_db b (<[name := Remove_bucket max_key nxt bkt]> (db b)),
        S i).
Proof.
  intros Hready Hs Hi Henv Hkv Hnxt.
  assert (Ha : anchor 0 = max_key) by (vm_compute; reflexivity).
  split; [vm_compute; reflexivity|].
  split; [vm_compute; reflexivity|].
  split; [done|].
  split; [apply max_key_greatest|].
  rewrite <- Ha in *. split.
  - unfold Insert. rewrite Hready. cbn [negb].
    apply with_retries_first_commit; [done..|].
    by apply Insert_tx_closed.
  - unfold Remove. rewrite Hready. cbn [negb].
    apply with_retries_first_commit; [done..|].
    by apply Remove_tx_closed.
Qed.

Lemma anchor_of_zero_wraps_witness :
  wrap64 (0 - 1) = (2 ^ 64 - 1)%Z
  /\ anchor 0 = Uint64ToBytesBigEndian (2 ^ 64 - 1)
  /\ anchor 0 = max_key
  /\ (forall k, String.length k = 8 -> String.le k max_key)
  /\ Insert engine_idx first_fails "idx" 0 "c"
     = (Returned None,
        with_db engine_idx
          (<["idx" := Insert_bucket max_key "c" None None index_50_100]>
             (db engine_idx)),
        2)
  /\ Remove engine_idx first_fails "idx" 0
     = (Returned None,
        with_db engine_idx
          (<["idx" := Remove_bucket max_key None index_50_100]>
             (db engine_idx)),
        2).
Proof.
  apply (anchor_of_zero_wraps engine_idx first_fails "idx" "c" index_50_100
           None None 1).
  - reflexivity.
  - reflexivity.
  - simpl. lia.
  - split; [reflexivity|]. intros j Hj. assert (j = 0) as -> by lia. done.
  - apply least_in_compute. compute_done.
  - apply least_in_compute. compute_done.
Defined.

(** [Insert(name, 0, value)] on the index with boundaries at 50 and 100
    adds a boundary at the greatest key, with the empty value; [value]
    itself is stored nowhere. *)
Example Insert_zero :
  (Insert engine_idx no_fault "idx" 0 "c").1.2
  = with_db engine_idx
      {[ "idx" := {[ Uint64ToBytesBigEndian 50 := "a";
                     Uint64ToBytesBigEndian 100 := "b";
                     max_key := "" ]} ]}.
Proof. vm_compute. reflexivity. Qed.

(** * Further properties of the engine *)

(** ** Reading what is stored *)

Lemma Get_stored (b : BoltDB) (namespace key : string) :
  IsReady b = true ->
  Get b namespace key
  = match stored (db b) namespace key with
    | Some v => (Some v, None)
    | None => (None, Some (Wrapped ErrNotExist))
    end.
Proof.
  intros Hready. unfold Get, View, Get_tx, tx_bind, tx_Bucket, stored.
  rewrite Hready. simpl.
  destruct (db b !! namespace) as [bkt|]; [|done].
  by destruct (bkt !! key).
Qed.

Lemma BucketExists_lookup (b : BoltDB) (namespace : string) :
  IsReady b = true ->
  BucketExists b namespace = bool_decide (is_Some (db b !! namespace)).
Proof.
  intros Hready. unfold BucketExists, View, tx_bind, tx_Bucket, tx_ret.
  by rewrite Hready.
Qed.

Lemma Put_tx_closed (s : Store) (namespace key value : string) :
  Put_tx namespace key value s
  = inr (tt, <[namespace := <[key := value]> (default ∅ (s !! namespace))]> s).
Proof.
  unfold Put_tx, tx_bind, tx_CreateBucketIfNotExists, bucket_Put.
  destruct (s !! namespace) as [bkt|] eqn:Hs; simpl.
  - by rewrite (alter_bucket s namespace bkt).
  - rewrite (alter_bucket _ namespace ∅) by apply lookup_insert_eq.
    by rewrite insert_insert_eq.
Qed.

Lemma stored_insert_bucket (s : Store) (namespace : string) (bkt : Bucket)
    (ns k : string) :
  stored (<[namespace := bkt]> s) ns k
  = if decide (ns = namespace) then bkt !! k else stored s ns k.
Proof.
  unfold stored. destruct (decide (ns = namespace)) as [->|Hne].
  - by rewrite lookup_insert_eq.
  - by rewrite lookup_insert_ne.
Qed.

(** X1.  A [Put] that goes through is read back by [Get], makes the
    namespace exist, and changes the result of no [Get] of another key
    or namespace. *)
Theorem Put_then_Get (b : BoltDB) (env : nat -> option error)
    (namespace key value : string) (i : nat) :
  IsReady b = true ->
  i < NumRetries (config b) ->
  first_commit env i ->
  exists b',
    Put b env namespace key value = (Returned None, b', S i)
    /\ Get b' namespace key = (Some value, None)
    /\ BucketExists b' namespace = true
    /\ forall ns k, (ns, k) <> (namespace, key) -> Get b' ns k = Get b ns k.
Proof.
  intros Hready Hi Henv.
  eexists. split.
  { unfold Put. rewrite Hready. cbn [negb].
    apply with_retries_first_commit; [done..|]. apply Put_tx_closed. }
  split; [|split].
  - rewrite Get_stored by done. cbn [db with_db].
    by rewrite stored_insert_bucket, decide_True, lookup_insert_eq.
  - rewrite BucketExists_lookup by done. cbn [db with_db].
    rewrite lookup_insert_eq. by apply bool_decide_eq_true_2.
  - intros ns k Hne. rewrite !Get_stored by done. cbn [db with_db].
    rewrite stored_insert_bucket.
    destruct (decide (ns = namespace)) as [->|Hns]; [|done].
    rewrite lookup_insert_ne by congruence.
    unfold stored. by destruct (db b !! namespace).
Qed.

Lemma Put_then_Get_witness :
  exists b',
    Put engine_abc first_fails "ns" "b" "9" = (Returned None, b', 2)
    /\ Get b' "ns" "b" = (Some "9", None)
    /\ BucketExists b' "ns" = true
    /\ forall ns k, (ns, k) <> ("ns", "b") -> Get b' ns k = Get engine_abc ns k.
Proof.
  apply (Put_then_Get engine_abc first_fails "ns" "b" "9" 1).
  - reflexivity.
  - simpl. lia.
  - split; [reflexivity|]. intros j Hj. assert (j = 0) as -> by lia. done.
Defined.

(** ** Delete *)

Lemma Delete_tx_closed (s : Store) (namespace : string) (key : option string) :
  Delete_tx namespace key s
  = inr (tt, match key with
             | None => delete namespace s
             | Some k =>
                 match s !! namespace with
                 | Some bkt => <[namespace := delete k bkt]> s
                 | None => s
                 end
             end).
Proof.
  unfold Delete_tx, tx_bind, tx_DeleteBucket, tx_Bucket, bucket_Delete.
  destruct key as [k|].
  - destruct (s !! namespace) as [bkt|] eqn:Hs; [|done].
    by rewrite (alter_bucket s namespace bkt).
  - destruct (s !! namespace) as [bkt|] eqn:Hs; simpl; [done|].
    unfold tx_ret. by rewrite delete_id.
Qed.

(** X2.  A [Delete] of a key that goes through makes [Get] of that key
    fail with NotExist and changes the result of no other [Get]; the key
    or the whole namespace may be missing, the call succeeds all the
    same, and then it changes nothing at all. *)
Theorem Delete_key_then_Get (b : BoltDB) (env : nat -> option error)
    (namespace key : string) (i : nat) :
  IsReady b = true ->
  i < NumRetries (config b) ->
  first_commit env i ->
  exists b',
    Delete b env namespace (Some key) = (Returned None, b', S i)
    /\ Get b' namespace key = (None, Some (Wrapped ErrNotExist))
    /\ (forall ns k, (ns, k) <> (namespace, key) -> Get b' ns k = Get b ns k)
    /\ (stored (db b) namespace key = None -> b' = b).
Proof.
  intros Hready Hi Henv.
  eexists. split.
  { unfold Delete. rewrite Hready. cbn [negb].
    apply with_retries_first_commit; [done..|]. apply Delete_tx_closed. }
  cbn beta iota. unfold stored.
  destruct (db b !! namespace) as [bkt|] eqn:Hs.
  - split; [|split].
    + rewrite Get_stored by done. cbn [db with_db].
      by rewrite stored_insert_bucket, decide_True, lookup_delete_eq.
    + intros ns k Hne. rewrite !Get_stored by done. cbn [db with_db].
      rewrite stored_insert_bucket.
      destruct (decide (ns = namespace)) as [->|Hns]; [|done].
      rewrite lookup_delete_ne by congruence.
      unfold stored. by rewrite Hs.
    + intros Hnone. rewrite delete_id, insert_id by done.
      apply with_db_same.
  - split; [|split].
    + rewrite Get_stored, with_db_same by done. unfold stored. by rewrite Hs.
    + intros ns k _. by rewrite with_db_same.
    + intros _. apply with_db_same.
Qed.

Lemma Delete_key_then_Get_witness :
  exists b',
    Delete engine_abc first_fails "ns" (Some "b") = (Returned None, b', 2)
    /\ Get b' "ns" "b" = (None, Some (Wrapped ErrNotExist))
    /\ (forall ns k, (ns, k) <> ("ns", "b") -> Get b' ns k = Get engine_abc ns k)
    /\ (stored (db engine_abc) "ns" "b" = None -> b' = engine_abc).
Proof.
  apply (Delete_key_then_Get engine_abc first_fails "ns" "b" 1).
  - reflexivity.
  - simpl. lia.
  - split; [reflexivity|]. intros j Hj. assert (j = 0) as -> by lia. done.
Defined.

(** X3.  A [Delete] with a nil key that goes through removes the whole
    namespace: [BucketExists] is false afterwards, every [Get] in it
    fails with NotExist and [Filter] fails with BucketNotExist; the
    other namespaces are as before; and when the namespace did not
    exist the call succeeds and changes nothing. *)
Theorem Delete_bucket (b : BoltDB) (env : nat -> option error)
    (namespace : string) (i : nat) :
  IsReady b = true ->
  i < NumRetries (config b) ->
  first_commit env i ->
  exists b',
    Delete b env namespace None = (Returned None, b', S i)
    /\ BucketExists b' namespace = false
    /\ (forall k, Get b' namespace k = (None, Some (Wrapped ErrNotExist)))
    /\ (forall cond minKey maxKey,
          Filter b' namespace cond minKey maxKey
          = (None, None, Some (Wrapped ErrBucketNotExist)))
    /\ (forall ns, ns <> namespace -> db b' !! ns = db b !! ns)
    /\ (db b !! namespace = None -> b' = b).
Proof.
  intros Hready Hi Henv.
  eexists. split.
  { unfold Delete. rewrite Hready. cbn [negb].
    apply with_retries_first_commit; [done..|]. apply Delete_tx_closed. }
  cbn beta iota. repeat split.
  - rewrite BucketExists_lookup by done. cbn [db with_db].
    rewrite lookup_delete_eq. apply bool_decide_eq_false_2. by intros [? ?].
  - intros k. rewrite Get_stored by done. cbn [db with_db].
    unfold stored. by rewrite lookup_delete_eq.
  - intros cond minKey maxKey.
    unfold Filter, View, Filter_tx, tx_bind, tx_Bucket.
    cbn [IsReady ready with_db db]. fold (IsReady b). rewrite Hready.
    cbn [negb]. by rewrite lookup_delete_eq.
  - intros ns Hne. cbn [db with_db]. by rewrite lookup_delete_ne.
  - intros Hnone. rewrite delete_id by done. apply with_db_same.
Qed.

Lemma Delete_bucket_witness :
  exists b',
    Delete engine_abc first_fails "ns" None = (Returned None, b', 2)
    /\ BucketExists b' "ns" = false
    /\ (forall k, Get b' "ns" k = (None, Some (Wrapped ErrNotExist)))
    /\ (forall cond minKey maxKey,
          Filter b' "ns" cond minKey maxKey
          = (None, None, Some (Wrapped ErrBucketNotExist)))
    /\ (forall ns, ns <> "ns" -> db b' !! ns = db engine_abc !! ns)
    /\ (db engine_abc !! "ns" = None -> b' = engine_abc).
Proof.
  apply (Delete_bucket engine_abc first_fails "ns" 1).
  - reflexivity.
  - simpl. lia.
  - split; [reflexivity|]. intros j Hj. assert (j = 0) as -> by lia. done.
Defined.

(** ** Readiness, attempts and atomicity *)

(** X4.  On an engine that is not ready every operation returns
    [ErrDBNotStarted] at once, without a transaction attempt and
    without a change; only [BucketExists] answers, with false. *)
Theorem not_ready_is_refused (NotExist : string) (b : BoltDB)
    (env : nat -> option error) :
  IsReady b = false ->
  (forall m, run NotExist m b env = (Returned (Some ErrDBNotStarted), b, 0))
  /\ (forall ns k, Get b ns k = (None, Some ErrDBNotStarted))
  /\ (forall ns cond minKey maxKey,
        Filter b ns cond minKey maxKey = (None, None, Some ErrDBNotStarted))
  /\ (forall maxLen ns k count,
        Range maxLen b ns k count = Completed (None, Some ErrDBNotStarted))
  /\ (forall name key, SeekNext b name key = (None, Some ErrDBNotStarted))
  /\ (forall name key, SeekPrev b name key = (None, Some ErrDBNotStarted))
  /\ (forall ns, GetBucketByPrefix b ns = (None, Some ErrDBNotStarted))
  /\ (forall fuel ns prefix,
        GetKeyByPrefix fuel b ns prefix = Some (None, Some ErrDBNotStarted))
  /\ (forall fault ns key value,
        batchPutForceFail b fault ns key value = (Some ErrDBNotStarted, b))
  /\ (forall ns, BucketExists b ns = false).
Proof.
  intros Hready. repeat split.
  - intros m. destruct m; simpl;
      unfold Put, Delete, WriteBatch, Insert, Remove, Purge; by rewrite Hready.
  - intros. unfold Get. by rewrite Hready.
  - intros. unfold Filter. by rewrite Hready.
  - intros. unfold Range. by rewrite Hready.
  - intros. unfold SeekNext. by rewrite Hready.
  - intros. unfold SeekPrev. by rewrite Hready.
  - intros. unfold GetBucketByPrefix. by rewrite Hready.
  - intros. unfold GetKeyByPrefix. by rewrite Hready.
  - intros. unfold batchPutForceFail. by rewrite Hready.
  - intros. unfold BucketExists. by rewrite Hready.
Qed.

Lemma not_ready_is_refused_witness :
  Put engine_stopped no_fault "ns" "a" "2"
  = (Returned (Some ErrDBNotStarted), engine_stopped, 0)
  /\ Get engine_stopped "ns" "a" = (None, Some ErrDBNotStarted)
  /\ BucketExists engine_stopped "ns" = false.
Proof.
  destruct (not_ready_is_refused "" engine_stopped no_fault eq_refl)
    as (Hrun & Hget & _ & _ & _ & _ & _ & _ & _ & Hexists).
  split; [exact (Hrun (MPut "ns" "a" "2"))|].
  split; [apply Hget|apply Hexists].
Defined.

Lemma retry_sound (fn : Tx unit) (env : nat -> option error) (s : Store) :
  forall n c err e' s' c',
    retry fn env n c s err = (e', s', c') ->
    c <= c' <= c + n
    /\ (c' = c -> e' = err /\ s' = s)
    /\ (e' <> None -> c < c' -> s' = s)
    /\ (e' = None -> c < c' -> fn s = inr (tt, s')).
Proof.
  induction n as [|n IH]; intros c err e' s' c' Hr; simpl in Hr.
  - injection Hr as <- <- <-.
    split; [lia|]. split; [done|]. split; intros; exfalso; lia.
  - assert (Hrec : forall e, retry fn env n (S c) s (Some e) = (e', s', c') ->
        c <= c' <= c + S n
        /\ (c' = c -> e' = err /\ s' = s)
        /\ (e' <> None -> c < c' -> s' = s)
        /\ (e' = None -> c < c' -> fn s = inr (tt, s'))).
    { intros e Hr'. apply IH in Hr' as (Hc & Hsame & Hfail & Hok).
      split; [lia|]. split; [intros; exfalso; lia|]. split.
      - intros He _. destruct (decide (c' = S c)) as [Heq|Hne].
        + by destruct (Hsame Heq).
        + apply Hfail; [done|lia].
      - intros He _. destruct (decide (c' = S c)) as [Heq|Hne].
        + destruct (Hsame Heq) as [He' _]. congruence.
        + apply Hok; [done|lia]. }
    unfold Update in Hr.
    destruct (fn s) as [e|[[] s1]] eqn:Hfn; [by apply (Hrec e)|].
    destruct (env c) as [e|]; [by apply (Hrec e)|].
    injection Hr as <- <- <-.
    split; [lia|]. split; [intros; exfalso; lia|]. split; [done|done].
Qed.

(** X5.  Whatever the store does in the attempts, a mutating operation
    on a ready engine makes at most [NumRetries] attempts; when it does
    not return success the store is exactly as before; and when it
    returns success after an attempt, the store is what one run of the
    transaction body makes of the store before, once and not more. *)
Theorem mutations_are_atomic (NotExist : string) (m : mutation) (b : BoltDB)
    (env : nat -> option error) :
  IsReady b = true ->
  exists out b' n,
    run NotExist m b env = (out, b', n)
    /\ n <= NumRetries (config b)
    /\ (out <> Returned None -> db b' = db b)
    /\ (out = Returned None -> 0 < n ->
        body NotExist m (db b) = inr (tt, db b')).
Proof.
  intros Hready. rewrite run_with_retries by done. unfold with_retries.
  destruct (retry (body NotExist m) env (NumRetries (config b)) 0 (db b) None)
    as [[e' s'] c'] eqn:Hr.
  apply retry_sound in Hr as (Hc & Hsame & Hfail & Hok).
  exists (escalate e'), (with_db b s'), c'. split; [done|].
  split; [lia|]. cbn [db with_db]. split.
  - intros Hout. destruct (decide (c' = 0)) as [->|Hne].
    + by destruct (Hsame eq_refl).
    + apply Hfail; [|lia]. intros ->. by apply Hout.
  - intros Hout Hn. apply Hok; [|done].
    destruct e' as [e|]; [|done]. simpl in Hout. by destruct (Is e ENOSPC).
Qed.

Lemma mutations_are_atomic_witness :
  exists out b' n,
    Put engine_abc first_fails "ns" "e" "5" = (out, b', n)
    /\ n <= 3
    /\ (out <> Returned None -> db b' = db engine_abc)
    /\ (out = Returned None -> 0 < n ->
        Put_tx "ns" "e" "5" (db engine_abc) = inr (tt, db b')).
Proof.
  exact (mutations_are_atomic "" (MPut "ns" "e" "5") engine_abc first_fails
           eq_refl).
Defined.

(** X6.  With [NumRetries] set to 0 a mutating operation on a ready
    engine makes no attempt at all and yet returns success: nothing is
    written and no error tells so. *)
Theorem zero_retries_writes_nothing (NotExist : string) (m : mutation)
    (b : BoltDB) (env : nat -> option error) :
  IsReady b = true ->
  NumRetries (config b) = 0 ->
  run NotExist m b env = (Returned None, b, 0).
Proof.
  intros Hready HN. rewrite run_with_retries by done.
  unfold with_retries. rewrite HN. simpl. by rewrite with_db_same.
Qed.

Lemma zero_retries_writes_nothing_witness :
  Put engine_no_retry no_fault "ns" "a" "2" = (Returned None, engine_no_retry, 0)
  /\ Get engine_no_retry "ns" "a" = (Some "1", None).
Proof.
  split; [|reflexivity].
  exact (zero_retries_writes_nothing "" (MPut "ns" "a" "2") engine_no_retry
           no_fault eq_refl eq_refl).
Defined.

(** X7.  On a ready engine without the index namespace, [Insert],
    [Remove] and [Purge] fail in every attempt, use up all
    [NumRetries] attempts and return the IO error, in which the missing
    bucket no longer shows; [SeekNext] and [SeekPrev] report it as
    BucketNotExist.  Nothing is changed. *)
Theorem index_on_missing_bucket (NotExist : string) (b : BoltDB)
    (env : nat -> option error) (name : string) (key : Z) (value : string)
    (n : nat) :
  IsReady b = true ->
  db b !! name = None ->
  NumRetries (config b) = S n ->
  Insert b env name key value = (Returned (Some (Wrapped ErrIO)), b, S n)
  /\ Remove b env name key = (Returned (Some (Wrapped ErrIO)), b, S n)
  /\ Purge NotExist b env name key = (Returned (Some (Wrapped ErrIO)), b, S n)
  /\ Cause (Wrapped ErrIO) <> ErrBucketNotExist
  /\ SeekNext b name key = (None, Some (Wrapped ErrBucketNotExist))
  /\ SeekPrev b name key = (None, Some (Wrapped ErrBucketNotExist)).
Proof.
  intros Hready Hs HN.
  assert (Hfail : forall fn : Tx unit,
            fn (db b) = inl (Wrapped ErrBucketNotExist) ->
            with_retries b env fn = (Returned (Some (Wrapped ErrIO)), b, S n)).
  { intros fn Hfn.
    assert (Hf : forall j, failure fn env (db b) j = Some (Wrapped ErrBucketNotExist)).
    { intros j. unfold failure, Update. by rewrite Hfn. }
    rewrite (with_retries_exhausted b env fn n); [|done|].
    - rewrite Hf. simpl. by rewrite with_db_same.
    - intros j _. by rewrite Hf. }
  unfold Insert, Remove, Purge, SeekNext, SeekPrev, View. rewrite Hready.
  cbn [negb].
  split; [|split; [|split; [|split; [|split]]]].
  - apply Hfail. unfold Insert_tx, tx_bind, tx_Bucket. by rewrite Hs.
  - apply Hfail. unfold Remove_tx, tx_bind, tx_Bucket. by rewrite Hs.
  - apply Hfail. unfold Purge_tx, tx_bind, tx_Bucket. by rewrite Hs.
  - done.
  - unfold SeekNext_tx, tx_bind, tx_Bucket. by rewrite Hs.
  - unfold SeekPrev_tx, tx_bind, tx_Bucket. by rewrite Hs.
Qed.

Lemma index_on_missing_bucket_witness :
  Insert engine_abc no_fault "idx" 5 "v"
  = (Returned (Some (Wrapped ErrIO)), engine_abc, 3)
  /\ Remove engine_abc no_fault "idx" 5
     = (Returned (Some (Wrapped ErrIO)), engine_abc, 3)
  /\ Purge "gone" engine_abc no_fault "idx" 5
     = (Returned (Some (Wrapped ErrIO)), engine_abc, 3)
  /\ Cause (Wrapped ErrIO) <> ErrBucketNotExist
  /\ SeekNext engine_abc "idx" 5 = (None, Some (Wrapped ErrBucketNotExist))
  /\ SeekPrev engine_abc "idx" 5 = (None, Some (Wrapped ErrBucketNotExist)).
Proof.
  exact (index_on_missing_bucket "gone" engine_abc no_fault "idx" 5 "v" 2
           eq_refl eq_refl eq_refl).
Defined.

(** ** What a committed batch amounts to *)

Lemma WriteBatch_step_stored (w : batch.WriteInfo) (s : Store) :
  exists s',
    WriteBatch_step w s = inr (tt, s')
    /\ forall ns k,
         stored s' ns k
         = if participates w
              && bool_decide ((batch.namespace w, batch.key w) = (ns, k))
           then effect w
           else stored s ns k.
Proof.
  unfold WriteBatch_step, participates, effect.
  destruct w as [wt wns wk wv]. cbn [batch.writeType batch.namespace
    batch.key batch.value].
  destruct wt as [| |tag].
  - fold (Put_tx wns wk wv). rewrite Put_tx_closed. eexists. split; [done|].
    intros ns k. rewrite stored_insert_bucket. simpl.
    destruct (decide (ns = wns)) as [->|Hns].
    + destruct (decide (k = wk)) as [->|Hk].
      * by rewrite bool_decide_eq_true_2, lookup_insert_eq.
      * rewrite bool_decide_eq_false_2 by congruence.
        rewrite lookup_insert_ne by done.
        unfold stored. by destruct (s !! wns).
    + by rewrite bool_decide_eq_false_2 by congruence.
  - unfold tx_bind, tx_Bucket, bucket_Delete. simpl.
    destruct (s !! wns) as [bkt|] eqn:Hs.
    + rewrite (alter_bucket s wns bkt) by done. eexists. split; [done|].
      intros ns k. rewrite stored_insert_bucket.
      destruct (decide (ns = wns)) as [->|Hns].
      * destruct (decide (k = wk)) as [->|Hk].
        -- by rewrite bool_decide_eq_true_2, lookup_delete_eq.
        -- rewrite bool_decide_eq_false_2 by congruence.
           rewrite lookup_delete_ne by done. unfold stored. by rewrite Hs.
      * by rewrite bool_decide_eq_false_2 by congruence.
    + exists s. split; [done|]. intros ns k.
      case_bool_decide as Hk; [|done].
      injection Hk as <- <-. unfold stored. by rewrite Hs.
  - exists s. split; [done|]. intros ns k. done.
Qed.

Lemma apply_writes_stored (l : list batch.WriteInfo) :
  forall s, exists s',
    apply_writes l s = inr (tt, s')
    /\ forall ns k,
         stored s' ns k
         = match net l ns k with
           | Some r => r
           | None => stored s ns k
           end.
Proof.
  induction l as [|w l IH]; intros s; simpl.
  - by exists s.
  - destruct (WriteBatch_step_stored w s) as (s1 & Hstep & Hs1).
    destruct (IH s1) as (s2 & Hrest & Hs2).
    exists s2. unfold tx_bind. rewrite Hstep. split; [done|].
    intros ns k. rewrite Hs2, Hs1.
    destruct (net l ns k); [done|].
    by destruct (participates w && _).
Qed.

Lemma net_participant (l : list batch.WriteInfo) (w : batch.WriteInfo) :
  w ∈ l -> participates w = true ->
  is_Some (net l (batch.namespace w) (batch.key w)).
Proof.
  induction l as [|w' l IH]; [by intros ?%elem_of_nil|].
  intros Hin Hp. simpl.
  destruct (net l (batch.namespace w) (batch.key w)) as [r|] eqn:Hn; [done|].
  apply elem_of_cons in Hin as [->|Hin].
  - by rewrite Hp, bool_decide_eq_true_2.
  - destruct (IH Hin Hp) as [r Hr]. congruence.
Qed.

(** The coalescing pass does not change what the batch amounts to. *)
Lemma net_last_writes (l : list batch.WriteInfo) (ns k : string) :
  net (last_writes l) ns k = net l ns k.
Proof.
  induction l as [|w l IH]; simpl; [done|].
  destruct (participates w) eqn:Hp; simpl;
    [|rewrite IH; by destruct (net l ns k)].
  destruct (existsb _ l) eqn:He; simpl; [|by rewrite IH, Hp].
  rewrite IH. destruct (net l ns k) as [r|] eqn:Hn; [done|].
  case_bool_decide as Hk; [|done]. exfalso.
  apply existsb_same_key in He as (w' & Hin & Hp' & Hk').
  destruct (net_participant l w' Hin Hp') as [r Hr].
  injection Hk as <- <-. injection Hk' as Hns Hkey.
  rewrite Hns, Hkey in Hr. congruence.
Qed.

(** The last [Put] or [Delete] of a key decides. *)
Lemma net_last (l1 l2 : list batch.WriteInfo) (w : batch.WriteInfo) :
  participates w = true ->
  (forall w', w' ∈ l2 -> participates w' = true ->
     (batch.namespace w', batch.key w') <> (batch.namespace w, batch.key w)) ->
  net (l1 ++ w :: l2) (batch.namespace w) (batch.key w) = Some (effect w).
Proof.
  intros Hp Hl2.
  assert (Hn2 : net l2 (batch.namespace w) (batch.key w) = None).
  { clear Hp. induction l2 as [|w' l2 IH]; simpl; [done|].
    rewrite IH by (intros; apply Hl2; [by right|done]).
    destruct (participates w') eqn:Hp'; [|done]. simpl.
    rewrite bool_decide_eq_false_2; [done|].
    apply Hl2; [left|done]. }
  induction l1 as [|w1 l1 IH]; simpl.
  - by rewrite Hn2, Hp, bool_decide_eq_true_2.
  - by rewrite IH.
Qed.

(** X8.  After a [WriteBatch] that goes through, [Get] of a key
    returns the value of the last [Put] of that key in the batch, fails
    with NotExist when the last write of the key is a [Delete], and
    returns what it returned before when the batch does not write the
    key; writes of other kinds and earlier writes of the key do not
    count. *)
Theorem WriteBatch_then_Get (b : BoltDB) (env : nat -> option error)
    (kvsb : batch.KVStoreBatch) (i : nat) :
  IsReady b = true ->
  i < NumRetries (config b) ->
  first_commit env i ->
  exists b',
    WriteBatch b env kvsb = (Returned None, b', S i)
    /\ forall ns k,
         Get b' ns k
         = match net kvsb ns k with
           | Some (Some v) => (Some v, None)
           | Some None => (None, Some (Wrapped ErrNotExist))
           | None => Get b ns k
           end.
Proof.
  intros Hready Hi Henv.
  destruct (apply_writes_stored (last_writes kvsb) (db b)) as (s' & Hrun & Hs').
  exists (with_db b s'). split.
  - rewrite WriteBatch_with_retries by done.
    by apply with_retries_first_commit.
  - intros ns k. rewrite !Get_stored by done. cbn [db with_db].
    rewrite Hs', net_last_writes.
    by destruct (net kvsb ns k) as [[v|]|].
Qed.

Lemma WriteBatch_then_Get_witness :
  exists b',
    WriteBatch engine_abc first_fails batch_v1_v2 = (Returned None, b', 2)
    /\ forall ns k,
         Get b' ns k
         = match net batch_v1_v2 ns k with
           | Some (Some v) => (Some v, None)
           | Some None => (None, Some (Wrapped ErrNotExist))
           | None => Get engine_abc ns k
           end.
Proof.
  apply (WriteBatch_then_Get engine_abc first_fails batch_v1_v2 1).
  - reflexivity.
  - simpl. lia.
  - split; [reflexivity|]. intros j Hj. assert (j = 0) as -> by lia. done.
Defined.

Lemma last_writes_none (l : list batch.WriteInfo) :
  (forall w, w ∈ l -> participates w = false) -> last_writes l = [].
Proof.
  induction l as [|w l IH]; intros Hl; simpl; [done|].
  rewrite (Hl w) by left. simpl. apply IH. intros w' Hw'. apply Hl. by right.
Qed.

(** X9.  A [WriteBatch] of a batch that holds no [Put] and no
    [Delete], the empty batch among them, still runs a transaction and,
    when it goes through, returns success with the engine exactly as
    before. *)
Theorem WriteBatch_without_writes (b : BoltDB) (env : nat -> option error)
    (kvsb : batch.KVStoreBatch) (i : nat) :
  IsReady b = true ->
  i < NumRetries (config b) ->
  first_commit env i ->
  (forall w, w ∈ kvsb -> participates w = false) ->
  WriteBatch b env kvsb = (Returned None, b, S i).
Proof.
  intros Hready Hi Henv Hnone.
  rewrite WriteBatch_with_retries by done.
  rewrite (last_writes_none kvsb) by done.
  rewrite (with_retries_first_commit b env _ i (db b)) by done.
  by rewrite with_db_same.
Qed.

Lemma WriteBatch_without_writes_witness :
  WriteBatch engine_abc first_fails [] = (Returned None, engine_abc, 2).
Proof.
  apply (WriteBatch_without_writes engine_abc first_fails [] 1).
  - reflexivity.
  - simpl. lia.
  - split; [reflexivity|]. intros j Hj. assert (j = 0) as -> by lia. done.
  - intros w Hw. by apply elem_of_nil in Hw.
Defined.

(** ** Prefixes *)

Lemma prefix_empty (s : string) : String.prefix "" s = true.
Proof. by destruct s. Qed.

Lemma prefix_of_empty (p : string) : p <> "" -> String.prefix p "" = false.
Proof. by destruct p. Qed.

Lemma prefix_append (p s : string) :
  String.prefix p s = true <-> exists t, s = String.append p t.
Proof.
  revert s. induction p as [|a p IH]; intros s.
  - rewrite prefix_empty. split; [by exists s|done].
  - destruct s as [|b s]; simpl.
    + split; [done|]. by intros [t ?].
    + destruct (ascii_dec a b) as [->|Hne].
      * rewrite IH. split.
        -- intros [t ->]. by exists t.
        -- intros [t Ht]. simpl in Ht. injection Ht as ->. by exists t.
      * split; [done|]. intros [t Ht]. simpl in Ht. by injection Ht.
Qed.

Lemma le_cons (a b : ascii) (s t : string) :
  String.le (String a s) (String b t)
  <-> Ascii.compare a b = Lt \/ (a = b /\ String.le s t).
Proof.
  unfold String.le, String.leb. simpl.
  destruct (Ascii.compare a b) eqn:Hc; simpl.
  - apply Ascii.compare_eq_iff in Hc as ->. intuition congruence.
  - intuition.
  - split; [done|]. intros [?|[-> _]]; [done|].
    unfold Ascii.compare in Hc. by rewrite N.compare_refl in Hc.
Qed.

Lemma append_empty_r (s : string) : String.append s "" = s.
Proof.
  induction s as [|a s IH]; [done|].
  change (String a (String.append s "") = String a s). by f_equal.
Qed.

Lemma append_eq_self (s t : string) : String.append s t = s -> t = "".
Proof.
  induction s as [|a s IH]; [done|].
  change (String a (String.append s t) = String a s -> t = "").
  intros Heq. injection Heq as Heq. by apply IH.
Qed.

(** A key with the prefix is not below the prefix, and between the
    prefix and a key with the prefix every key has the prefix. *)
Lemma prefix_le (p k : string) : String.prefix p k = true -> String.le p k.
Proof.
  revert k. induction p as [|a p IH]; intros k Hp.
  - unfold String.le, String.leb. by destruct k.
  - destruct k as [|b k]; [done|]. simpl in Hp.
    destruct (ascii_dec a b) as [->|]; [|done].
    apply le_cons. right. split; [done|by apply IH].
Qed.

Lemma prefix_convex (p k k' : string) :
  String.le p k -> String.le k k' -> String.prefix p k' = true ->
  String.prefix p k = true.
Proof.
  revert k k'. induction p as [|a p IH]; intros k k' Hpk Hkk' Hp.
  - apply prefix_empty.
  - destruct k' as [|c k']; [done|]. simpl in Hp.
    destruct (ascii_dec a c) as [<-|]; [|done].
    destruct k as [|b k]; [done|].
    apply le_cons in Hpk as [Hab|[<- Hpk]];
      apply le_cons in Hkk' as [Hba|[Heq Hkk']].
    + rewrite Ascii.compare_antisym, Hab in Hba. done.
    + subst b. unfold Ascii.compare in Hab. by rewrite N.compare_refl in Hab.
    + unfold Ascii.compare in Hba. by rewrite N.compare_refl in Hba.
    + simpl. destruct (ascii_dec a a); [|done]. by apply (IH k k').
Qed.

(** ** Listing buckets by prefix *)

Lemma elem_of_bucket_names (s : Store) (name : string) :
  name ∈ bucket_names s <-> is_Some (s !! name).
Proof.
  unfold bucket_names. rewrite merge_sort_Permutation, list_elem_of_fmap.
  split.
  - intros ([k bkt] & -> & Hin). apply elem_of_map_to_list in Hin. by exists bkt.
  - intros [bkt Hb]. exists (name, bkt). split; [done|].
    by apply elem_of_map_to_list.
Qed.

Lemma bucket_names_sorted (s : Store) :
  StronglySorted (fun a b => String.ltb a b = true) (bucket_names s).
Proof.
  assert (Hs : StronglySorted String.le (bucket_names s)).
  { unfold bucket_names. apply StronglySorted_merge_sort; apply _. }
  assert (Hnd : NoDup (bucket_names s)).
  { unfold bucket_names. rewrite merge_sort_Permutation.
    apply NoDup_fst_map_to_list. }
  induction Hs as [|x l Hs IH Hall]; [constructor|].
  apply NoDup_cons in Hnd as [Hx Hnd]. constructor; [by apply IH|].
  rewrite Forall_forall in Hall. apply Forall_forall. intros y Hy.
  apply le_ne_ltb; [by apply Hall|]. by intros ->.
Qed.

Lemma sorted_filter (p : string -> bool) (l : list string) :
  StronglySorted (fun a b => String.ltb a b = true) l ->
  StronglySorted (fun a b => String.ltb a b = true) (List.filter p l).
Proof.
  induction 1 as [|x l Hs IH Hall]; simpl; [constructor|].
  destruct (p x); [|done]. constructor; [done|].
  rewrite Forall_forall in Hall. apply Forall_forall. intros y Hy.
  apply list_elem_of_In, filter_In in Hy as [Hy _].
  by apply Hall, list_elem_of_In.
Qed.

Lemma GetBucketByPrefix_each_closed (namespace : string) (names allKey : list string) :
  GetBucketByPrefix_each namespace names allKey
  = allKey ++ List.filter (fun name => bytes_HasPrefix name namespace
                                       && negb (bytes_Equal (Some name) (Some namespace)))
                          names.
Proof.
  revert allKey. induction names as [|name names IH]; intros allKey; simpl.
  - by rewrite app_nil_r.
  - rewrite IH. destruct (bytes_HasPrefix name namespace && _); [|done].
    by rewrite <- app_assoc.
Qed.

(** X10.  [GetBucketByPrefix] on a ready engine never fails and
    returns, in ascending order and each once, exactly the names of the
    existing buckets that start with the given prefix and are longer
    than it; the bucket named like the prefix itself is left out. *)
Theorem GetBucketByPrefix_lists_proper_extensions (b : BoltDB) (namespace : string) :
  IsReady b = true ->
  exists names,
    GetBucketByPrefix b namespace = (Some names, None)
    /\ StronglySorted (fun x y => String.ltb x y = true) names
    /\ forall name,
         name ∈ names
         <-> is_Some (db b !! name)
             /\ exists t, t <> "" /\ name = String.append namespace t.
Proof.
  intros Hready. eexists. split.
  { unfold GetBucketByPrefix, View, GetBucketByPrefix_tx. rewrite Hready.
    cbn [negb]. by rewrite GetBucketByPrefix_each_closed. }
  split.
  - simpl. apply sorted_filter, bucket_names_sorted.
  - intros name. simpl.
    rewrite list_elem_of_In, filter_In, <- list_elem_of_In, elem_of_bucket_names.
    rewrite andb_true_iff, negb_true_iff. unfold bytes_HasPrefix, bytes_Equal.
    simpl. rewrite prefix_append, bool_decide_eq_false.
    split.
    + intros (Hin & [t ->] & Hne). split; [done|]. exists t. split; [|done].
      intros ->. apply Hne. apply append_empty_r.
    + intros (Hin & t & Ht & ->). split; [done|]. split; [by exists t|].
      intros Heq. by apply Ht, (append_eq_self namespace).
Qed.

Lemma GetBucketByPrefix_lists_proper_extensions_witness :
  exists names,
    GetBucketByPrefix engine_buckets "a" = (Some names, None)
    /\ StronglySorted (fun x y => String.ltb x y = true) names
    /\ forall name,
         name ∈ names
         <-> is_Some (db engine_buckets !! name)
             /\ exists t, t <> "" /\ name = String.append "a" t.
Proof.
  exact (GetBucketByPrefix_lists_proper_extensions engine_buckets "a" eq_refl).
Defined.

Example GetBucketByPrefix_a :
  GetBucketByPrefix engine_buckets "a" = (Some ["aa"; "ab"], None).
Proof. vm_compute. reflexivity. Qed.

(** ** Listing keys by prefix *)

Lemma filter_no_string (p : string -> bool) (l : list string) :
  Forall (fun x => p x = false) l -> List.filter p l = [].
Proof.
  induction 1 as [|x l Hx _ IH]; simpl; [done|]. by rewrite Hx.
Qed.

Lemma GetKeyByPrefix_loop_nil (fuel : nat) (prefix : string) (c : Cursor)
    (allKey : list string) :
  prefix <> "" ->
  GetKeyByPrefix_loop (S fuel) prefix c None allKey = Some allKey.
Proof.
  intros Hp. by destruct prefix.
Qed.

(** With a prefix that is not empty the loop ends: on the first key
    without the prefix, or on the nil key behind the last entry. *)
Lemma GetKeyByPrefix_loop_closed (prefix : string) :
  prefix <> "" ->
  forall aft bef fuel allKey,
    StronglySorted entry_lt aft ->
    Forall (fun e => String.le prefix e.1) aft ->
    length aft < fuel ->
    GetKeyByPrefix_loop fuel prefix (mkCursor bef aft) (head aft) allKey
    = Some (allKey ++ List.filter (String.prefix prefix) aft.*1).
Proof.
  intros Hp. induction aft as [|[k v] aft IH];
    intros bef fuel allKey Hs Hall Hfuel;
    (destruct fuel as [|fuel]; [simpl in Hfuel; lia|]).
  - rewrite GetKeyByPrefix_loop_nil by done. by rewrite app_nil_r.
  - apply StronglySorted_inv in Hs as [Hs Hlt].
    apply Forall_cons in Hall as [Hk Hall]. simpl in Hk, Hfuel.
    cbn [GetKeyByPrefix_loop head].
    change (default "" (fst <$> Some (k, v))) with k.
    unfold bytes_HasPrefix. rewrite fmap_cons. cbn [List.filter fst].
    destruct (String.prefix prefix k) eqn:Hpk.
    + unfold Next. cbn [after before].
      destruct aft as [|e' aft'].
      * destruct fuel as [|fuel]; [lia|].
        rewrite GetKeyByPrefix_loop_nil by done. done.
      * specialize (IH ((k, v) :: bef) fuel (allKey ++ [k]) Hs Hall).
        cbn [head] in IH. rewrite IH by (simpl in *; lia).
        by rewrite <- app_assoc.
    + rewrite filter_no_string; [by rewrite app_nil_r|].
      rewrite Forall_forall in Hlt. apply Forall_forall.
      intros k' Hk'.
      apply list_elem_of_fmap in Hk' as ([k2 v2] & -> & Hin).
      destruct (String.prefix prefix k2) eqn:Hpk'; [|done].
      assert (String.prefix prefix k = true); [|congruence].
      apply (prefix_convex prefix k k2); [done| |done].
      by apply ltb_le, (Hlt (k2, v2)).
Qed.

Lemma filter_prefix_skip_below (prefix : string) (l : list entry) :
  StronglySorted entry_lt l ->
  List.filter (String.prefix prefix) (skip_below prefix l).*1
  = List.filter (String.prefix prefix) l.*1.
Proof.
  induction 1 as [|[k v] l Hs IH Hall]; simpl; [done|].
  destruct (String.ltb k prefix) eqn:Hk; simpl; [|done].
  rewrite IH. destruct (String.prefix prefix k) eqn:Hpk; [|done].
  apply prefix_le, ltb_false_le in Hpk. congruence.
Qed.

(** X11.  [GetKeyByPrefix] with a prefix that is not empty returns on
    an existing bucket, in ascending order, exactly the keys of the
    bucket that start with the prefix, and no error; on a missing
    bucket it returns the empty list together with the bare
    [ErrNotExist]. *)
Theorem GetKeyByPrefix_lists_keys (b : BoltDB) (namespace prefix : string)
    (fuel : nat) :
  IsReady b = true ->
  prefix <> "" ->
  (db b !! namespace = None ->
   GetKeyByPrefix fuel b namespace prefix = Some (Some [], Some ErrNotExist))
  /\ (forall bkt, db b !! namespace = Some bkt ->
      length (entries bkt) < fuel ->
      GetKeyByPrefix fuel b namespace prefix
      = Some (Some (List.filter (String.prefix prefix) (entries bkt).*1), None)
      /\ StronglySorted entry_lt (entries bkt)
      /\ forall k, k ∈ (entries bkt).*1 <-> is_Some (bkt !! k)).
Proof.
  intros Hready Hp. unfold GetKeyByPrefix. rewrite Hready. cbn [negb]. split.
  - by intros ->.
  - intros bkt -> Hfuel. split; [|split; [apply entries_sorted|]].
    + unfold Seek, bucket_Cursor. cbn [before after rev_append].
      pose proof (seek_from_after prefix [] (entries bkt)) as Ha.
      pose proof (entries_sorted bkt) as Hs.
      destruct (seek_from prefix [] (entries bkt)) as [bef aft].
      cbn [after] in *. subst aft.
      rewrite (GetKeyByPrefix_loop_closed prefix Hp).
      * cbn [app]. by rewrite filter_prefix_skip_below.
      * by apply skip_below_sorted.
      * rewrite skip_below_range by done. apply Forall_forall.
        intros e He. apply list_elem_of_In, filter_In in He as [_ He].
        by apply negb_true_iff, ltb_false_le in He.
      * rewrite skip_below_range by done.
        eapply Nat.le_lt_trans; [apply filter_length_le|done].
    + intros k. rewrite list_elem_of_fmap. split.
      * intros ([k' v] & -> & Hin). apply elem_of_entries in Hin. by exists v.
      * intros [v Hv]. exists (k, v). split; [done|by apply elem_of_entries].
Qed.

Lemma GetKeyByPrefix_lists_keys_witness :
  GetKeyByPrefix 5 engine_abc "ns" "b" = Some (Some ["b"], None)
  /\ GetKeyByPrefix 5 engine_abc "nn" "b" = Some (Some [], Some ErrNotExist).
Proof.
  destruct (GetKeyByPrefix_lists_keys engine_abc "ns" "b" 5 eq_refl)
    as [_ Hsome]; [done|].
  destruct (GetKeyByPrefix_lists_keys engine_abc "nn" "b" 5 eq_refl)
    as [Hnone _]; [done|].
  split.
  - destruct (Hsome _ eq_refl) as (-> & _); [vm_compute; lia|].
    vm_compute. reflexivity.
  - by apply Hnone.
Defined.

Lemma GetKeyByPrefix_loop_empty_prefix (fuel : nat) :
  forall c kv allKey, GetKeyByPrefix_loop fuel "" c kv allKey = None.
Proof.
  induction fuel as [|fuel IH]; intros c kv allKey; simpl; [done|].
  unfold bytes_HasPrefix. rewrite prefix_empty.
  destruct (Next c) as [c' kv']. apply IH.
Qed.

(** X12.  [GetKeyByPrefix] with an empty prefix on an existing bucket
    does not return: behind the last key the cursor yields the nil
    key, which has the empty prefix too, so the loop goes on, adding
    empty keys, whatever number of rounds it is given. *)
Theorem GetKeyByPrefix_empty_prefix_runs_on (b : BoltDB) (namespace : string)
    (bkt : Bucket) (fuel : nat) :
  IsReady b = true ->
  db b !! namespace = Some bkt ->
  GetKeyByPrefix fuel b namespace "" = None.
Proof.
  intros Hready Hs. unfold GetKeyByPrefix. rewrite Hready, Hs. cbn [negb].
  destruct (Seek "" (bucket_Cursor bkt)) as [c kv].
  by rewrite GetKeyByPrefix_loop_empty_prefix.
Qed.

Lemma GetKeyByPrefix_empty_prefix_runs_on_witness :
  GetKeyByPrefix 1000 engine_abc "ns" "" = None.
Proof.
  exact (GetKeyByPrefix_empty_prefix_runs_on engine_abc "ns" _ 1000
           eq_refl eq_refl).
Defined.

(** ** The forced failure *)

Lemma forced_error_none (fault : TxFaults) (n i : nat) :
  (forall k, i <= k < i + n -> onPut fault k = None) ->
  forced_error fault n i = Wrapped ErrIO.
Proof.
  revert i. induction n as [|n IH]; intros i Hnone; [done|].
  cbn [forced_error]. rewrite (Hnone i) by lia.
  apply IH. intros k Hk. apply Hnone. lia.
Qed.

Lemma forced_error_first (fault : TxFaults) (e : error) (n i j : nat) :
  i <= j < i + n ->
  onPut fault j = Some e ->
  (forall k, i <= k < j -> onPut fault k = None) ->
  forced_error fault n i = e.
Proof.
  revert i. induction n as [|n IH]; intros i Hj He Hnone; [lia|].
  cbn [forced_error].
  destruct (decide (i = j)) as [->|Hne]; [by rewrite He|].
  rewrite (Hnone i) by lia.
  apply IH; [lia|done|]. intros k Hk. apply Hnone. lia.
Qed.

(** With as many values as keys, the loop ends in an error once it is
    entered: a refused [Put] returns at once, and the last round fails
    by force. *)
Lemma batchPutForceFail_loop_fails (fault : TxFaults) (namespace : string)
    (key value : list string) :
  length key = length value ->
  forall n i s,
    0 < n -> i + n = length key ->
    batchPutForceFail_loop fault namespace key value n i s
    = inl (forced_error fault n i).
Proof.
  intros Hlen. induction n as [|n IH]; intros i s Hn Hi; [lia|].
  cbn [batchPutForceFail_loop forced_error].
  destruct (lookup_lt_is_Some_2 key i ltac:(lia)) as [k ->].
  destruct (lookup_lt_is_Some_2 value i ltac:(lia)) as [v ->].
  unfold tx_bind, checked.
  destruct (onPut fault i) as [e|]; [done|].
  unfold bucket_Put.
  destruct (Nat.eqb_spec i (length key - 1)) as [Heq|Hne].
  - assert (n = 0) as -> by lia. done.
  - apply IH; lia.
Qed.

Lemma batchPutForceFail_tx_fails (fault : TxFaults) (namespace : string)
    (key value : list string) (s : Store) :
  key <> [] \/ length key <> length value ->
  batchPutForceFail_tx fault namespace key value s
  = inl match onCreate fault with
        | Some e => e
        | None =>
            if decide (length key = length value)
            then forced_error fault (length key) 0
            else Wrapped ErrIO
        end.
Proof.
  intros Hcase. unfold batchPutForceFail_tx, tx_bind, checked.
  destruct (onCreate fault) as [e|]; [done|].
  unfold tx_CreateBucketIfNotExists.
  destruct (decide (length key = length value)) as [Hlen|Hlen].
  - rewrite (proj2 (Nat.eqb_eq _ _) Hlen). cbn [negb].
    apply batchPutForceFail_loop_fails; [done| |lia].
    destruct Hcase as [Hne|Hne]; [|done]. destruct key; [done|simpl; lia].
  - by rewrite (proj2 (Nat.eqb_neq _ _) Hlen).
Qed.

(** X13.  [batchPutForceFail] with at least one key, or with key and
    value lists of different lengths, always returns an error and
    leaves the engine exactly as it was: not even the namespace it
    created and none of the values it wrote stay.  The error is the one
    the store gives when it refuses to create the bucket; otherwise the
    IO error when the lengths differ; otherwise the answer of the first
    [Put] the store refuses; and the forced IO error when the store
    refuses nothing.  With two empty lists and a store that refuses
    nothing it succeeds, and the namespace exists afterwards. *)
Theorem batchPutForceFail_rolls_back (b : BoltDB) (fault : TxFaults)
    (namespace : string) (key value : list string) :
  IsReady b = true ->
  (key <> [] \/ length key <> length value ->
   (exists err, batchPutForceFail b fault namespace key value = (Some err, b))
   /\ (forall e, onCreate fault = Some e ->
       batchPutForceFail b fault namespace key value = (Some e, b))
   /\ (onCreate fault = None -> length key <> length value ->
       batchPutForceFail b fault namespace key value = (Some (Wrapped ErrIO), b))
   /\ (onCreate fault = None -> length key = length value ->
       forall j e, j < length key -> onPut fault j = Some e ->
         (forall i, i < j -> onPut fault i = None) ->
         batchPutForceFail b fault namespace key value = (Some e, b))
   /\ (onCreate fault = None -> length key = length value ->
       (forall i, i < length key -> onPut fault i = None) ->
       batchPutForceFail b fault namespace key value = (Some (Wrapped ErrIO), b)))
  /\ (key = [] -> value = [] ->
      (forall e, onCreate fault = Some e ->
         batchPutForceFail b fault namespace key value = (Some e, b))
      /\ (onCreate fault = None -> onCommit fault = None ->
          exists b',
            batchPutForceFail b fault namespace key value = (None, b')
            /\ BucketExists b' namespace = true
            /\ forall ns k, Get b' ns k = Get b ns k)).
Proof.
  intros Hready. unfold batchPutForceFail. rewrite Hready. cbn [negb]. split.
  - intros Hcase. unfold Update.
    rewrite (batchPutForceFail_tx_fails fault namespace key value (db b) Hcase).
    rewrite with_db_same.
    split; [by eexists|]. split; [by intros e ->|].
    split; [|split].
    + intros -> Hlen. by rewrite decide_False.
    + intros -> Hlen j e Hj He Hnone. rewrite decide_True by done.
      rewrite (forced_error_first fault e (length key) 0 j); [done|lia|done|].
      intros k Hk. apply Hnone. lia.
    + intros -> Hlen Hnone. rewrite decide_True by done.
      rewrite forced_error_none; [done|]. intros k Hk. apply Hnone. lia.
  - intros -> ->. split.
    + intros e He. unfold Update, batchPutForceFail_tx, tx_bind, checked.
      rewrite He. cbn [tx_fail]. by rewrite with_db_same.
    + intros Hc Hcommit.
      unfold Update, batchPutForceFail_tx, tx_bind, checked.
      rewrite Hc, Hcommit. unfold tx_CreateBucketIfNotExists.
      cbn [length Nat.eqb negb batchPutForceFail_loop tx_ret].
      eexists. split; [reflexivity|]. split.
      * rewrite BucketExists_lookup by done. cbn [db with_db].
        apply bool_decide_eq_true_2.
        destruct (db b !! namespace) eqn:Hs; [by rewrite Hs|].
        by rewrite lookup_insert_eq.
      * intros ns k. rewrite !Get_stored by done. cbn [db with_db].
        destruct (db b !! namespace) eqn:Hs; [done|].
        rewrite stored_insert_bucket.
        destruct (decide (ns = namespace)) as [->|]; [|done].
        unfold stored. by rewrite Hs.
Qed.

Lemma batchPutForceFail_rolls_back_witness :
  batchPutForceFail engine_abc no_tx_fault "ns" ["a"; "b"] ["x"; "y"]
  = (Some (Wrapped ErrIO), engine_abc)
  /\ batchPutForceFail engine_abc first_put_refused "ns" [""; "b"] ["x"; "y"]
     = (Some (ErrStore 2), engine_abc)
  /\ Get engine_abc "ns" "a" = (Some "1", None).
Proof.
  split; [|split; [|reflexivity]].
  - destruct (proj1 (batchPutForceFail_rolls_back engine_abc no_tx_fault "ns"
                       ["a"; "b"] ["x"; "y"] eq_refl))
      as (_ & _ & _ & _ & Hforced); [by left|].
    apply Hforced; done.
  - destruct (proj1 (batchPutForceFail_rolls_back engine_abc first_put_refused
                       "ns" [""; "b"] ["x"; "y"] eq_refl))
      as (_ & _ & _ & Hput & _); [by left|].
    apply (Hput eq_refl eq_refl 0 (ErrStore 2)); [simpl; lia|done|].
    intros i Hi. lia.
Defined.

(** ** Range index: lookups *)

(** X14.  On an existing index namespace [SeekNext] never fails and
    returns the value of the smallest stored boundary at or after the
    key, [SeekPrev] the value of the greatest stored boundary strictly
    below the key, each the empty value when there is no such
    boundary. *)
Theorem Seek_returns_neighbour_value (b : BoltDB) (name : string) (key : Z)
    (bkt : Bucket) (nxt prv : option entry) :
  IsReady b = true ->
  db b !! name = Some bkt ->
  least_in bkt (String.le (Uint64ToBytesBigEndian key)) nxt ->
  greatest_in bkt (fun k => String.ltb k (Uint64ToBytesBigEndian key) = true) prv ->
  SeekNext b name key = (Some (default "" (snd <$> nxt)), None)
  /\ SeekPrev b name key = (Some (default "" (snd <$> prv)), None).
Proof.
  intros Hready Hs Hnxt Hprv. split.
  - by apply (SeekNext_closed b name key bkt).
  - by apply (SeekPrev_closed b name key bkt).
Qed.

Lemma Seek_returns_neighbour_value_witness :
  SeekNext engine_idx "idx" 60 = (Some "b", None)
  /\ SeekPrev engine_idx "idx" 60 = (Some "a", None).
Proof.
  apply (Seek_returns_neighbour_value engine_idx "idx" 60 index_50_100
           (Some (Uint64ToBytesBigEndian 100, "b"))
           (Some (Uint64ToBytesBigEndian 50, "a"))).
  - reflexivity.
  - reflexivity.
  - apply least_in_compute. compute_done.
  - apply greatest_in_compute. compute_done.
Defined.

(** ** Range index: Insert undone by Remove *)

Lemma Insert_then_Remove_bucket (bkt : Bucket) (ak value : string)
    (kv nxt nxt1 : option entry) :
  bkt !! ak = None ->
  least_in bkt (String.le ak) kv ->
  least_in (Insert_bucket ak value kv nxt bkt)
           (fun k => String.ltb ak k = true) nxt1 ->
  Remove_bucket ak nxt1 (Insert_bucket ak value kv nxt bkt) = bkt.
Proof.
  intros Hak Hkv Hnxt1. unfold Insert_bucket in *.
  destruct kv as [[k v]|].
  - pose proof (least_ge_hit _ _ _ _ Hkv) as Hhit.
    destruct (decide (k = ak)) as [->|Hne]; [congruence|]. clear Hhit.
    destruct Hkv as (Hk & Hle & Hmin).
    assert (Hnew : least_in (<[k := value]> (<[ak := v]> bkt))
                     (fun k0 => String.ltb ak k0 = true) (Some (k, value))).
    { split; [apply lookup_insert_eq|]. split; [by apply le_ne_ltb|].
      intros k' [x Hk'] Hlt.
      destruct (decide (k' = k)) as [->|Hk'k]; [done|].
      rewrite lookup_insert_ne in Hk' by done.
      destruct (decide (k' = ak)) as [->|Hk'a];
        [by rewrite ltb_irrefl in Hlt|].
      rewrite lookup_insert_ne in Hk' by done.
      apply Hmin; [by exists x|by apply ltb_le]. }
    rewrite (least_in_unique _ _ _ _ Hnxt1 Hnew).
    unfold Remove_bucket.
    rewrite lookup_insert_ne, lookup_insert_eq by done.
    apply map_eq. intros x.
    destruct (decide (x = k)) as [->|Hxk]; [by rewrite lookup_insert_eq|].
    rewrite lookup_insert_ne by done.
    destruct (decide (x = ak)) as [->|Hxa]; [by rewrite lookup_delete_eq|].
    by rewrite lookup_delete_ne, !lookup_insert_ne.
  - simpl in Hkv.
    assert (nxt1 = None) as ->.
    { destruct nxt1 as [[k' v']|]; [|done]. exfalso.
      destruct Hnxt1 as (Hk' & Hlt & _).
      destruct (decide (k' = ak)) as [->|Hne];
        [by rewrite ltb_irrefl in Hlt|].
      rewrite lookup_insert_ne in Hk' by done.
      apply (Hkv k'); [by exists v'|by apply ltb_le]. }
    unfold Remove_bucket. rewrite lookup_insert_eq.
    by apply delete_insert_id.
Qed.

(** X15.  When no boundary is stored at the anchor of [key], an
    [Insert(name, key, value)] followed by [Remove(name, key)] leaves
    the engine exactly as it was before the [Insert]: the split is
    undone and the boundary above has its old value again. *)
Theorem Insert_then_Remove_restores (b : BoltDB) (env env' : nat -> option error)
    (name : string) (key : Z) (value : string) (bkt : Bucket) (i j : nat) :
  IsReady b = true ->
  db b !! name = Some bkt ->
  bkt !! anchor key = None ->
  i < NumRetries (config b) -> first_commit env i ->
  j < NumRetries (config b) -> first_commit env' j ->
  exists b1,
    Insert b env name key value = (Returned None, b1, S i)
    /\ Remove b1 env' name key = (Returned None, b, S j).
Proof.
  intros Hready Hs Hak Hi Henv Hj Henv'.
  destruct (least_ge_exists bkt (anchor key)) as [kv Hkv].
  destruct (least_gt_exists bkt (anchor key)) as [nxt Hnxt].
  set (bkt1 := Insert_bucket (anchor key) value kv nxt bkt).
  destruct (least_gt_exists bkt1 (anchor key)) as [nxt1 Hnxt1].
  exists (with_db b (<[name := bkt1]> (db b))). split.
  - unfold Insert. rewrite Hready. cbn [negb].
    apply with_retries_first_commit; [done..|].
    by apply Insert_tx_closed.
  - unfold Remove. cbn [IsReady ready with_db]. fold (IsReady b).
    rewrite Hready. cbn [negb].
    rewrite (with_retries_first_commit _ env' _ j
               (<[name := Remove_bucket (anchor key) nxt1 bkt1]>
                  (<[name := bkt1]> (db b)))); [|done|done|].
    + assert (Hback : Remove_bucket (anchor key) nxt1 bkt1 = bkt)
        by by apply Insert_then_Remove_bucket.
      rewrite Hback. unfold with_db. cbn [ready config db].
      rewrite insert_insert_eq, (insert_id _ _ _ Hs).
      by destruct b.
    + cbn [db with_db]. apply Remove_tx_closed; [apply lookup_insert_eq|done].
Qed.

Lemma Insert_then_Remove_restores_witness :
  exists b1,
    Insert engine_idx first_fails "idx" 71 "c" = (Returned None, b1, 2)
    /\ Remove b1 no_fault "idx" 71 = (Returned None, engine_idx, 1).
Proof.
  apply (Insert_then_Remove_restores engine_idx first_fails no_fault "idx" 71
           "c" index_50_100 1 0).
  - reflexivity.
  - reflexivity.
  - vm_compute. reflexivity.
  - simpl. lia.
  - split; [reflexivity|]. intros j Hj. assert (j = 0) as -> by lia. done.
  - simpl. lia.
  - split; [reflexivity|]. intros j Hj. lia.
Defined.

(** ** Range index: lookups after a Purge *)

(** X16.  After a [Purge(name, key)] that found a boundary at or after
    [key], every domain value whose encoding is at or before that
    boundary is reported as purged: [SeekNext] returns the not-exist
    marker for it, and [SeekPrev], with no boundary left below it,
    returns the empty value. *)
Theorem Purge_then_Seek (NotExist : string) (b : BoltDB)
    (env : nat -> option error) (name : string) (key key' : Z) (bkt : Bucket)
    (nk v : string) (i : nat) :
  IsReady b = true ->
  db b !! name = Some bkt ->
  i < NumRetries (config b) ->
  first_commit env i ->
  least_in bkt (String.le (Uint64ToBytesBigEndian key)) (Some (nk, v)) ->
  String.le (Uint64ToBytesBigEndian key') nk ->
  exists b',
    Purge NotExist b env name key = (Returned None, b', S i)
    /\ SeekNext b' name key' = (Some NotExist, None)
    /\ SeekPrev b' name key' = (Some "", None).
Proof.
  intros Hready Hs Hi Henv Hkv Hle.
  set (bkt' := Purge_bucket NotExist (Some (nk, v)) bkt).
  exists (with_db b (<[name := bkt']> (db b))).
  assert (Hkeys : forall k, is_Some (bkt' !! k) -> String.le nk k).
  { intros k [x Hk]. unfold bkt', Purge_bucket in Hk.
    destruct (decide (k = nk)) as [->|Hne]; [done|].
    rewrite lookup_insert_ne in Hk by done.
    by apply map_lookup_filter_Some in Hk as [_ Hk]. }
  split; [|split].
  - unfold Purge. rewrite Hready. cbn [negb].
    apply with_retries_first_commit; [done..|].
    by apply Purge_tx_closed.
  - apply (SeekNext_closed _ name key' bkt' (Some (nk, NotExist))).
    + done.
    + apply lookup_insert_eq.
    + split; [apply lookup_insert_eq|]. split; [done|].
      intros k' Hk' _. by apply Hkeys.
  - apply (SeekPrev_closed _ name key' bkt' None).
    + done.
    + apply lookup_insert_eq.
    + intros k' Hk' Hlt. apply ltb_not_le in Hlt. apply Hlt.
      trans nk; [done|by apply Hkeys].
Qed.

Lemma Purge_then_Seek_witness :
  exists b',
    Purge "gone" engine_idx first_fails "idx" 60 = (Returned None, b', 2)
    /\ SeekNext b' "idx" 55 = (Some "gone", None)
    /\ SeekPrev b' "idx" 55 = (Some "", None).
Proof.
  apply (Purge_then_Seek "gone" engine_idx first_fails "idx" 60 55
           index_50_100 (Uint64ToBytesBigEndian 100) "b" 1).
  - reflexivity.
  - reflexivity.
  - simpl. lia.
  - split; [reflexivity|]. intros j Hj. assert (j = 0) as -> by lia. done.
  - apply least_in_compute. compute_done.
  - vm_compute. reflexivity.
Defined.

(** ** Filter and Get *)

Lemma sorted_filter_entries (p : entry -> bool) (l : list entry) :
  StronglySorted entry_lt l -> StronglySorted entry_lt (List.filter p l).
Proof.
  induction 1 as [|x l Hs IH Hall]; simpl; [constructor|].
  destruct (p x); [|done]. constructor; [done|].
  rewrite Forall_forall in Hall. apply Forall_forall. intros y Hy.
  apply list_elem_of_In, filter_In in Hy as [Hy _].
  by apply Hall, list_elem_of_In.
Qed.

(** X17.  On an existing namespace [Filter] returns, in strictly
    ascending key order, exactly the pairs that [Get] finds, whose key
    lies within the given bounds (bounds included, an empty bound is no
    bound) and that satisfy the predicate; it fails with NotExist
    exactly when there is no such pair. *)
Theorem Filter_agrees_with_Get (b : BoltDB) (namespace : string)
    (cond : string -> string -> bool) (minKey maxKey : string) (bkt : Bucket) :
  IsReady b = true ->
  db b !! namespace = Some bkt ->
  exists sel : list entry,
    Filter b namespace cond minKey maxKey
    = match sel with
      | [] => (None, None, Some (Wrapped ErrNotExist))
      | _ :: _ => (Some sel.*1, Some sel.*2, None)
      end
    /\ StronglySorted entry_lt sel
    /\ forall k v,
         (k, v) ∈ sel
         <-> Get b namespace k = (Some v, None)
             /\ (minKey = "" \/ String.le minKey k)
             /\ (maxKey = "" \/ String.le k maxKey)
             /\ cond k v = true.
Proof.
  intros Hready Hns.
  exists (List.filter (fun e : entry => cond e.1 e.2)
            (visited minKey maxKey (entries bkt))).
  split; [|split].
  - unfold Filter, View. rewrite Hready. cbn [negb].
    rewrite (Filter_tx_visited bkt) by done.
    by destruct (List.filter _ _).
  - apply sorted_filter_entries. rewrite visited_range.
    apply sorted_filter_entries, entries_sorted.
  - intros k v. rewrite visited_range, list_elem_of_In, !filter_In.
    rewrite <- list_elem_of_In, elem_of_entries. cbn [fst snd].
    rewrite andb_true_iff, !orb_true_iff, !negb_true_iff, !ltb_false_le.
    rewrite !Nat.eqb_eq.
    assert (Hget : Get b namespace k = (Some v, None) <-> bkt !! k = Some v).
    { rewrite Get_stored by done. unfold stored. rewrite Hns.
      destruct (bkt !! k); split; intros H; congruence. }
    rewrite Hget.
    assert (Hlen : forall s : string, String.length s = 0 <-> s = "").
    { intros [|a s]; simpl; split; congruence. }
    rewrite !Hlen. tauto.
Qed.

Lemma Filter_agrees_with_Get_witness :
  exists sel : list entry,
    Filter engine_abc "ns" (fun _ v => negb (String.eqb v "3")) "b" ""
    = match sel with
      | [] => (None, None, Some (Wrapped ErrNotExist))
      | _ :: _ => (Some sel.*1, Some sel.*2, None)
      end
    /\ StronglySorted entry_lt sel
    /\ forall k v,
         (k, v) ∈ sel
         <-> Get engine_abc "ns" k = (Some v, None)
             /\ ("b" = "" \/ String.le "b" k)
             /\ ("" = "" \/ String.le k "")
             /\ negb (String.eqb v "3") = true.
Proof.
  apply (Filter_agrees_with_Get engine_abc "ns"
           (fun _ v => negb (String.eqb v "3")) "b" ""
           {[ "b" := "2"; "a" := "1"; "d" := "4"; "c" := "3" ]}).
  - reflexivity.
  - reflexivity.
Defined.

(** ** Range index: lookups after an Insert *)

Lemma anchor_below (key : Z) :
  (1 <= key < 2 ^ 64)%Z ->
  String.ltb (anchor key) (Uint64ToBytesBigEndian key) = true.
Proof.
  intros Hkey. unfold anchor, wrap64, String.ltb.
  rewrite Z.mod_small by lia.
  rewrite Uint64ToBytesBigEndian_compare by lia.
  by rewrite (proj2 (Z.compare_lt_iff _ _)) by lia.
Qed.

(** With a boundary stored above the anchor, what [Insert] leaves key by
    key: the new value on the next boundary, the value of the split
    range on the anchor, everything else as it was. *)
Lemma Insert_bucket_lookup (bkt : Bucket) (ak value k v kn vn x : string) :
  least_in bkt (String.le ak) (Some (k, v)) ->
  least_in bkt (fun k' => String.ltb ak k' = true) (Some (kn, vn)) ->
  Insert_bucket ak value (Some (k, v)) (Some (kn, vn)) bkt !! x
  = if decide (x = kn) then Some value
    else if decide (x = ak) then Some v else bkt !! x.
Proof.
  intros Hkv Hnxt. unfold Insert_bucket.
  destruct (decide (k = ak)) as [->|Hne].
  - destruct (decide (x = kn)) as [->|Hx]; [apply lookup_insert_eq|].
    rewrite lookup_insert_ne by done.
    destruct (decide (x = ak)) as [->|Hxa]; [|done]. by destruct Hkv.
  - assert (Hsame : Some (kn, vn) = Some (k, v)).
    { apply (least_in_unique bkt (fun k' => String.ltb ak k' = true)); [done|].
      destruct Hkv as (Hk & Hle & Hmin).
      split; [done|]. split; [by apply le_ne_ltb|].
      intros k' Hk' Hlt. apply Hmin; [done|by apply ltb_le]. }
    injection Hsame as -> ->.
    destruct (decide (x = k)) as [->|Hx]; [apply lookup_insert_eq|].
    rewrite lookup_insert_ne by done.
    destruct (decide (x = ak)) as [->|Hxa]; [apply lookup_insert_eq|].
    by rewrite lookup_insert_ne.
Qed.

Lemma least_gt_some (bkt : Bucket) (ak : string) (nxt : option entry) :
  least_in bkt (fun k => String.ltb ak k = true) nxt ->
  (exists k, is_Some (bkt !! k) /\ String.ltb ak k = true) ->
  exists kn vn, nxt = Some (kn, vn).
Proof.
  intros Hnxt (k0 & Hk0 & Hlt). destruct nxt as [[kn vn]|]; [by eauto|].
  exfalso. by apply (Hnxt k0).
Qed.

Lemma least_ge_some (bkt : Bucket) (ak : string) (kv : option entry) :
  least_in bkt (String.le ak) kv ->
  (exists k, is_Some (bkt !! k) /\ String.ltb ak k = true) ->
  exists k v, kv = Some (k, v).
Proof.
  intros Hkv (k0 & Hk0 & Hlt). destruct kv as [[k v]|]; [by eauto|].
  exfalso. apply (Hkv k0); [done|by apply ltb_le].
Qed.

(** X18.  On an index where no stored key lies strictly between the
    anchor of [key] and the encoding of [key] (an index of 8-byte
    encodings has none) and a boundary above the anchor is stored, a
    committed [Insert(name, key, value)] makes [value] the answer of
    [SeekNext] for [key] itself. *)
Theorem Insert_then_SeekNext (b : BoltDB) (env : nat -> option error)
    (name : string) (key : Z) (value : string) (bkt : Bucket) (i : nat) :
  IsReady b = true ->
  db b !! name = Some bkt ->
  (1 <= key < 2 ^ 64)%Z ->
  (forall k, is_Some (bkt !! k) -> String.ltb (anchor key) k = true ->
             String.le (Uint64ToBytesBigEndian key) k) ->
  (exists k, is_Some (bkt !! k) /\ String.ltb (anchor key) k = true) ->
  i < NumRetries (config b) ->
  first_commit env i ->
  exists b1,
    Insert b env name key value = (Returned None, b1, S i)
    /\ SeekNext b1 name key = (Some value, None).
Proof.
  intros Hready Hs Hkey Htight Habove Hi Henv.
  destruct (least_ge_exists bkt (anchor key)) as [kv Hkv].
  destruct (least_gt_exists bkt (anchor key)) as [nxt Hnxt].
  destruct (least_ge_some _ _ _ Hkv Habove) as (k & v & ->).
  destruct (least_gt_some _ _ _ Hnxt Habove) as (kn & vn & ->).
  set (bkt1 := Insert_bucket (anchor key) value (Some (k, v)) (Some (kn, vn)) bkt).
  exists (with_db b (<[name := bkt1]> (db b))). split.
  - unfold Insert. rewrite Hready. cbn [negb].
    apply with_retries_first_commit; [done..|].
    by apply Insert_tx_closed.
  - pose proof (anchor_below key Hkey) as Hlt.
    pose proof (fun x => Insert_bucket_lookup bkt (anchor key) value k v kn vn
                          x Hkv Hnxt) as Hlook.
    fold bkt1 in Hlook.
    destruct Hnxt as (Hkn & Hakn & Hmin).
    apply (SeekNext_closed _ name key bkt1 (Some (kn, value))).
    + done.
    + apply lookup_insert_eq.
    + split; [|split].
      * rewrite Hlook. by rewrite decide_True.
      * apply Htight; [by rewrite Hkn|done].
      * intros k' Hk' Hle. rewrite Hlook in Hk'.
        destruct (decide (k' = kn)) as [->|Hne]; [done|].
        destruct (decide (k' = anchor key)) as [->|Hne'].
        { exfalso. apply ltb_not_le in Hlt. exact (Hlt Hle). }
        apply Hmin; [exact Hk'|].
        exact (ltb_le_trans _ (Uint64ToBytesBigEndian key) _ Hlt Hle).
Qed.

Lemma all_keys_compute (bkt : Bucket) (P : string -> Prop) :
  Forall (fun e : entry => P e.1) (map_to_list bkt) ->
  forall k, is_Some (bkt !! k) -> P k.
Proof.
  intros Hall k [x Hk]. rewrite Forall_forall in Hall.
  by apply (Hall (k, x)), elem_of_map_to_list.
Qed.

Lemma Insert_then_SeekNext_witness :
  exists b1,
    Insert engine_idx first_fails "idx" 71 "c" = (Returned None, b1, 2)
    /\ SeekNext b1 "idx" 71 = (Some "c", None).
Proof.
  apply (Insert_then_SeekNext engine_idx first_fails "idx" 71 "c"
           index_50_100 1).
  - reflexivity.
  - reflexivity.
  - lia.
  - apply (all_keys_compute index_50_100
             (fun k => String.ltb (anchor 71) k = true ->
                       String.le (Uint64ToBytesBigEndian 71) k)).
    compute_done.
  - exists (Uint64ToBytesBigEndian 100). split; [by eexists|reflexivity].
  - simpl. lia.
  - split; [reflexivity|]. intros j Hj. assert (j = 0) as -> by lia. done.
Defined.

(** What [Insert] leaves has, for a key at or before the anchor, a least
    boundary at or after it with the value the bucket had there. *)
Lemma Insert_bucket_below (bkt : Bucket) (ak value e : string)
    (kv nxt kv0 : option entry) :
  least_in bkt (String.le ak) kv ->
  least_in bkt (fun k => String.ltb ak k = true) nxt ->
  String.le e ak ->
  least_in bkt (String.le e) kv0 ->
  exists kv1,
    least_in (Insert_bucket ak value kv nxt bkt) (String.le e) kv1
    /\ default "" (snd <$> kv1) = default "" (snd <$> kv0).
Proof.
  intros Hkv Hnxt Hle Hkv0.
  destruct kv as [[k v]|].
  - destruct nxt as [[kn vn]|].
    2:{ (* nothing above the anchor: the bucket is unchanged *)
      assert (k = ak) as ->.
      { destruct (decide (k = ak)) as [|Hne]; [done|]. exfalso.
        destruct Hkv as (Hk & Hak & _).
        apply (Hnxt k); [by rewrite Hk|by apply le_ne_ltb]. }
      exists kv0. split; [|done].
      unfold Insert_bucket. by rewrite decide_True. }
    pose proof (fun x => Insert_bucket_lookup bkt ak value k v kn vn
                          x Hkv Hnxt) as Hlook.
    pose proof Hkv as (Hk & Hak & Hmin).
    pose proof Hnxt as (Hkn & Hakn & Hminn).
    assert (Hknak : kn <> ak) by (intros ->; by rewrite ltb_irrefl in Hakn).
    destruct kv0 as [[k0 v0]|].
    2:{ exfalso. apply (Hkv0 k); [by rewrite Hk|by trans ak]. }
    destruct Hkv0 as (Hk0 & Hek0 & Hmin0).
    destruct (String.ltb k0 ak) eqn:Hk0ak.
    + (* the boundary found lies below the anchor and is untouched *)
      exists (Some (k0, v0)). split; [|done].
      assert (Hk0kn : String.ltb k0 kn = true)
        by (by apply (ltb_le_trans _ ak); [|apply ltb_le]).
      split; [|split; [done|]].
      * rewrite Hlook. rewrite decide_False.
        2:{ intros ->. by rewrite ltb_irrefl in Hk0kn. }
        rewrite decide_False; [done|].
        intros ->. by rewrite ltb_irrefl in Hk0ak.
      * intros k' Hk' Hek'. rewrite Hlook in Hk'.
        destruct (decide (k' = kn)) as [->|Hne]; [by apply ltb_le|].
        destruct (decide (k' = ak)) as [->|Hne']; [by apply ltb_le|].
        by apply Hmin0.
    + (* the boundary found is the one the anchor splits *)
      apply ltb_false_le in Hk0ak.
      assert (k0 = k) as ->.
      { apply (anti_symm String.le).
        - apply Hmin0; [by rewrite Hk|by trans ak].
        - apply Hmin; [by rewrite Hk0|done]. }
      assert (v0 = v) as -> by congruence.
      exists (Some (ak, v)). split; [|done].
      split; [|split; [done|]].
      * rewrite Hlook. by rewrite decide_False, decide_True.
      * intros k' Hk' Hek'. rewrite Hlook in Hk'.
        destruct (decide (k' = kn)) as [->|Hne]; [by apply ltb_le|].
        destruct (decide (k' = ak)) as [->|Hne']; [done|].
        trans k; [done|]. by apply Hmin0.
  - (* no boundary at or after the anchor: an empty one is added *)
    cbn [Insert_bucket]. simpl in Hkv.
    assert (Hbelow : forall k', is_Some (bkt !! k') -> k' <> ak).
    { intros k' Hk' ->. by apply (Hkv ak). }
    destruct kv0 as [[k0 v0]|].
    + destruct Hkv0 as (Hk0 & Hek0 & Hmin0).
      exists (Some (k0, v0)). split; [|done].
      split; [|split; [done|]].
      * rewrite lookup_insert_ne; [done|].
        intros <-. by apply (Hkv ak); [rewrite Hk0|].
      * intros k' Hk' Hek'.
        destruct (decide (k' = ak)) as [->|Hne].
        -- destruct (String.ltb ak k0) eqn:Hc; [|by apply ltb_false_le].
           exfalso. apply (Hkv k0); [by rewrite Hk0|by apply ltb_le].
        -- rewrite lookup_insert_ne in Hk' by done. by apply Hmin0.
    + exists (Some (ak, "")). split; [|done].
      split; [apply lookup_insert_eq|]. split; [done|].
      intros k' Hk' Hek'.
      destruct (decide (k' = ak)) as [->|Hne]; [done|].
      rewrite lookup_insert_ne in Hk' by done.
      exfalso. by apply (Hkv0 k').
Qed.

(** X19.  A committed [Insert(name, key, value)] changes no answer
    below its key: for every domain value whose encoding is at or
    before the anchor of [key], [SeekNext] returns after the [Insert]
    what it returned before. *)
Theorem Insert_keeps_lookups_below (b : BoltDB) (env : nat -> option error)
    (name : string) (key key' : Z) (value : string) (bkt : Bucket) (i : nat) :
  IsReady b = true ->
  db b !! name = Some bkt ->
  String.le (Uint64ToBytesBigEndian key') (anchor key) ->
  i < NumRetries (config b) ->
  first_commit env i ->
  exists b1,
    Insert b env name key value = (Returned None, b1, S i)
    /\ SeekNext b1 name key' = SeekNext b name key'.
Proof.
  intros Hready Hs Hle Hi Henv.
  destruct (least_ge_exists bkt (anchor key)) as [kv Hkv].
  destruct (least_gt_exists bkt (anchor key)) as [nxt Hnxt].
  destruct (least_ge_exists bkt (Uint64ToBytesBigEndian key')) as [kv0 Hkv0].
  destruct (Insert_bucket_below bkt (anchor key) value
              (Uint64ToBytesBigEndian key') kv nxt kv0 Hkv Hnxt Hle Hkv0)
    as (kv1 & Hkv1 & Hval).
  exists (with_db b (<[name := Insert_bucket (anchor key) value kv nxt bkt]> (db b))).
  split.
  - unfold Insert. rewrite Hready. cbn [negb].
    apply with_retries_first_commit; [done..|].
    by apply Insert_tx_closed.
  - rewrite (SeekNext_closed b name key' bkt kv0 Hready Hs Hkv0).
    rewrite (SeekNext_closed _ name key'
               (Insert_bucket (anchor key) value kv nxt bkt) kv1);
      [by rewrite Hval|exact Hready|apply lookup_insert_eq|exact Hkv1].
Qed.

Lemma Insert_keeps_lookups_below_witness :
  exists b1,
    Insert engine_idx first_fails "idx" 71 "c" = (Returned None, b1, 2)
    /\ SeekNext b1 "idx" 60 = SeekNext engine_idx "idx" 60.
Proof.
  apply (Insert_keeps_lookups_below engine_idx first_fails "idx" 71 60 "c"
           index_50_100 1).
  - reflexivity.
  - reflexivity.
  - vm_compute. reflexivity.
  - simpl. lia.
  - split; [reflexivity|]. intros j Hj. assert (j = 0) as -> by lia. done.
Defined.
